(** * ChiptuneSAK: the chirp song model, quantization, polyphony removal,
      the beat timeline and the measure populator.

    A shallow embedding of [ctsBase.py], [ctsChirp.py] and
    [ctsExportUtil.py].  Python integers are [Z]; [//] and [%] are
    [Z.div] and [Z.modulo] (both floor toward minus infinity and take the
    sign of the divisor, as Python does) with the zero divisor written out
    as [ZeroDivisionError].  Objects mutated in place are threaded as
    explicit state, and a call that raises hands back the state as the
    mutations made before the raise left it. *)

From stdpp Require Import base numbers list sorting gmap strings.

Open Scope Z_scope.

(** * Part I: the embedding *)

(** ** Exceptions and results *)

Inductive exn : Type :=
  | ChiptuneSAKValueError
  | ChiptuneSAKQuantizationError
  | ChiptuneSAKPolyphonyError
  | ChiptuneSAKContentError
  | ValueError
  | IndexError
  | ZeroDivisionError
  | TypeError
  | UnboundLocalError.

Global Instance exn_eq_dec : EqDecision exn.
Proof. solve_decision. Defined.

(** What a call does: it returns, it raises, or it never comes back. *)
Inductive result (A : Type) : Type :=
  | Ok (a : A)
  | Raise (e : exn)
  | Diverge.
Global Arguments Ok {A} a.
Global Arguments Raise {A} e.
Global Arguments Diverge {A}.

Global Instance result_ret : MRet result := λ A a, Ok a.
Global Instance result_bind : MBind result := λ A B k r,
  match r with
  | Ok a => k a
  | Raise e => Raise e
  | Diverge => Diverge
  end.
Global Instance result_fmap : FMap result := λ A B f r,
  match r with
  | Ok a => Ok (f a)
  | Raise e => Raise e
  | Diverge => Diverge
  end.

Definition returns {A} (r : result A) : bool :=
  match r with Ok _ => true | _ => false end.

(** [a // b] and [a % b]. *)
Definition floordiv (a b : Z) : result Z :=
  if decide (b = 0) then Raise ZeroDivisionError else Ok (a `div` b).
Definition pymod (a b : Z) : result Z :=
  if decide (b = 0) then Raise ZeroDivisionError else Ok (a `mod` b).

(** Stateful code: a call on state [S] gives a result and the state it
    leaves behind, also when it raises. *)
Definition M (S A : Type) : Type := S → result A * S.

Definition st_ret {S A} (a : A) : M S A := λ s, (Ok a, s).
Definition st_bind {S A B} (m : M S A) (k : A → M S B) : M S B :=
  λ s, match m s with
       | (Ok a, s') => k a s'
       | (Raise e, s') => (Raise e, s')
       | (Diverge, s') => (Diverge, s')
       end.
Definition st_raise {S A} (e : exn) : M S A := λ s, (Raise e, s).
Definition st_lift {S A} (r : result A) : M S A := λ s, (r, s).
Definition st_gets {S A} (f : S → A) : M S A := λ s, (Ok (f s), s).
Definition st_modify {S} (f : S → S) : M S () := λ s, (Ok (), f s).

Notation "'let*' x := e1 'in' e2" := (st_bind e1 (λ x, e2))
  (at level 10, x name, e1 at level 100, e2 at level 200).
Notation "'let*' ' p := e1 'in' e2" :=
  (st_bind e1 (λ x, match x with p => e2 end))
  (at level 10, p pattern, e1 at level 100, e2 at level 200).

(** [for i, x in enumerate(l): ... l[i] = ...]: the body runs on each
    element in turn and may leave the element changed; the loop stops at
    the first element whose body does not return, with the elements after
    it untouched.  The values the bodies returned so far are kept. *)
Fixpoint for_each {A B} (f : M A B) (l : list A) : list B * result () * list A :=
  match l with
  | [] => ([], Ok (), [])
  | x :: l' =>
      match f x with
      | (Ok b, x') =>
          let '(bs, r, l'') := for_each f l' in (b :: bs, r, x' :: l'')
      | (Raise e, x') => ([], Raise e, x' :: l')
      | (Diverge, x') => ([], Diverge, x' :: l')
      end
  end.

(** The same loop run on a field of the state: [get] reads the list,
    [set] writes it back. *)
Definition for_field {S A B} (get : S → list A) (set : list A → S → S)
    (f : M A B) : M S (list B) :=
  λ s, let '(bs, r, l') := for_each f (get s) in
       ((λ _, bs) <$> r, set l' s).

(** [sorted(l, key=...)] and [list.sort(key=...)]: a stable sort.  The
    stable sorted arrangement of a list is unique, so insertion from the
    right gives what Python's sort gives.  [le x y] is [key(x) <= key(y)]. *)
Fixpoint stable_insert {A} (le : A → A → bool) (x : A) (l : list A) : list A :=
  match l with
  | [] => [x]
  | y :: l' => if le x y then x :: y :: l' else y :: stable_insert le x l'
  end.

Fixpoint py_sorted {A} (le : A → A → bool) (l : list A) : list A :=
  match l with
  | [] => []
  | x :: l' => stable_insert le x (py_sorted le l')
  end.

(** Two elements whose keys are equal: neither is below the other. *)
Definition same_key {A} (le : A → A → bool) (z y : A) : bool :=
  le z y && le y z.

(** Tuple comparison of Python, on pairs and triples of integers. *)
Definition pair_le (a b : Z * Z) : bool :=
  bool_decide (a.1 < b.1) || (bool_decide (a.1 = b.1) && bool_decide (a.2 ≤ b.2)).

Definition triple_le (a b : Z * Z * Z) : bool :=
  bool_decide (a.1.1 < b.1.1)
  || (bool_decide (a.1.1 = b.1.1) && pair_le (a.1.2, a.2) (b.1.2, b.2)).

(** [max(...)] and [min(...)] of a sequence: [ValueError] on an empty one. *)
Definition py_max (l : list Z) : result Z :=
  match l with
  | [] => Raise ValueError
  | x :: l' => Ok (foldl Z.max x l')
  end.

Definition py_min (l : list Z) : result Z :=
  match l with
  | [] => Raise ValueError
  | x :: l' => Ok (foldl Z.min x l')
  end.

(** ** ctsBase.py *)

(** The named tuples.  [ctsChirp.py] builds them under the names
    [TimeSignature], [KeySignature], [Tempo] and [OtherMidi]. *)
Record TimeSignature : Type := mkTimeSignature {
  ts_start_time : Z; ts_num : Z; ts_denom : Z }.

Record KeySignature : Type := mkKeySignature {
  ks_start_time : Z; ks_key : string }.

Record Tempo : Type := mkTempo {
  tm_start_time : Z; tm_bpm : Z }.

(** A MIDI message of the [mido] library, as far as the code looks into
    it: its [type] and, for a program change, its [program]. *)
Record Msg : Type := mkMsg {
  msg_type : string; msg_program : Z }.

Record OtherMidi : Type := mkOtherMidi {
  om_start_time : Z; om_msg : Msg }.

Record Beat : Type := mkBeat {
  b_start_time : Z; b_measure : Z; b_beat : Z }.

Global Instance TimeSignature_eq_dec : EqDecision TimeSignature.
Proof. solve_decision. Defined.
Global Instance KeySignature_eq_dec : EqDecision KeySignature.
Proof. solve_decision. Defined.
Global Instance Tempo_eq_dec : EqDecision Tempo.
Proof. solve_decision. Defined.
Global Instance Msg_eq_dec : EqDecision Msg.
Proof. solve_decision. Defined.
Global Instance OtherMidi_eq_dec : EqDecision OtherMidi.
Proof. solve_decision. Defined.
Global Instance Beat_eq_dec : EqDecision Beat.
Proof. solve_decision. Defined.

Record SongMetadata : Type := mkSongMetadata {
  ppq : Z;
  md_name : string;
  composer : string;
  copyright : string;
  md_time_signature : TimeSignature;
  md_key_signature : KeySignature;
  bpm : Z }.

Definition quantization_error (t_ticks q_ticks : Z) : result Z :=
  j ← floordiv t_ticks q_ticks;
  Ok (Z.min (Z.abs (t_ticks - q_ticks * j)) (Z.abs (t_ticks - q_ticks * (j + 1)))).

Fixpoint mapR {A B} (f : A → result B) (l : list A) : result (list B) :=
  match l with
  | [] => Ok []
  | x :: l' => y ← f x; ys ← mapR f l'; Ok (y :: ys)
  end.

(** [max] of a generator: the elements are computed one by one, so an
    element that raises is met before the emptiness of the whole. *)
Definition objective_error (notes : list Z) (test_quantization : Z) : result Z :=
  errs ← mapR (λ n, quantization_error n test_quantization) notes;
  py_max errs.

(** The body of the [while note_value <= 128] loop of
    [find_quantization] and the loop itself; [note_value] takes the six
    values 4, 8, ..., 128, which is the fuel. *)
Fixpoint find_quantization_loop (fuel : nat) (time_series : list Z) (ppq : Z)
    (last_err last_q note_value : Z) : result Z :=
  match fuel with
  | O => Ok 1
  | S fuel' =>
      if decide (note_value ≤ 128) then
        let test_quantization := (ppq * 4) `div` note_value in
        e ← objective_error time_series test_quantization;
        if decide (e = 0) then Ok test_quantization
        else if decide (e > last_err) then Ok last_q
        else
          let last_q := test_quantization in
          let last_err := e in
          let test_quantization := (test_quantization * 2) `div` 3 in
          e ← objective_error time_series test_quantization;
          if decide (e = 0) then Ok test_quantization
          else if decide (e > last_err) then Ok last_q
          else find_quantization_loop fuel' time_series ppq e test_quantization
                 (note_value * 2)
      else Ok 1
  end.

Definition find_quantization (time_series : list Z) (ppq : Z) : result Z :=
  let last_err := Z.of_nat (length time_series) * ppq in
  let last_q := ppq in
  find_quantization_loop 6 time_series ppq last_err last_q 4.

(** [min_length / current_q < 0.9] and [> 0.9].  The quotient is a float;
    for integers below 2^50 in size it differs from nine tenths by far
    more than a rounding step unless it is equal to it, so the comparison
    is the exact one on rationals, written here by cross multiplication. *)
Definition ratio_lt_09 (a b : Z) : bool :=
  if decide (0 < b) then bool_decide (10 * a < 9 * b)
  else bool_decide (9 * b < 10 * a).
Definition ratio_gt_09 (a b : Z) : bool :=
  if decide (0 < b) then bool_decide (9 * b < 10 * a)
  else bool_decide (10 * a < 9 * b).

(** The [while ratio < 0.9] loop; [current_q] is the grid whose ratio is
    being tested.  A positive grid is halved until the test fails, which
    takes at most as many rounds as the grid has bits; other grids do not
    leave the loop. *)
Fixpoint find_duration_loop (fuel : nat) (min_length current_q : Z) : result Z :=
  if decide (current_q = 0) then Raise ZeroDivisionError
  else if ratio_lt_09 min_length current_q then
    match fuel with
    | O => Diverge
    | S fuel' =>
        let tmp_q := current_q in
        let current_q := (current_q * 3) `div` 2 in
        if decide (current_q = 0) then Raise ZeroDivisionError
        else if ratio_gt_09 min_length current_q then Ok current_q
        else find_duration_loop fuel' min_length (tmp_q `div` 2)
    end
  else Ok current_q.

Definition find_duration_quantization (durations : list Z) (qticks_note : Z)
    : result Z :=
  min_length ← py_min durations;
  if decide (¬ (min_length > 0)) then Raise ChiptuneSAKQuantizationError
  else find_duration_loop (Z.to_nat (Z.log2_up (Z.abs qticks_note)) + 2)
         min_length qticks_note.

Definition quantize_fn (t qticks : Z) : result Z :=
  current ← floordiv t qticks;
  let next := current + 1 in
  let current := current * qticks in
  let next := next * qticks in
  if decide (Z.abs (t - current) ≤ Z.abs (next - t)) then Ok current else Ok next.

(** The value [quantize_fn] returns on a positive grid. *)
Definition snap (t g : Z) : Z :=
  if decide (2 * (t `mod` g) ≤ g) then t - t `mod` g else t - t `mod` g + g.


(** ** ctsChirp.py: the data *)

Record Note : Type := mkNote {
  note_num : Z;
  start_time : Z;
  duration : Z;
  velocity : Z;
  tied : bool }.

Global Instance Note_eq_dec : EqDecision Note.
Proof. solve_decision. Defined.

Definition set_start_time (v : Z) (n : Note) : Note :=
  mkNote (note_num n) v (duration n) (velocity n) (tied n).
Definition set_duration (v : Z) (n : Note) : Note :=
  mkNote (note_num n) (start_time n) v (velocity n) (tied n).
Definition set_tied (v : bool) (n : Note) : Note :=
  mkNote (note_num n) (start_time n) (duration n) (velocity n) v.

(** A track.  Its reference to the song it belongs to is read for the
    song's [ppq] only, by the track's own [estimate_quantization], and is
    not part of the state here. *)
Record ChirpTrack : Type := mkChirpTrack {
  tr_name : string;
  channel : Z;
  notes : list Note;
  tr_other : list OtherMidi;
  tr_qticks_notes : Z;
  tr_qticks_durations : Z }.

Definition set_notes (v : list Note) (t : ChirpTrack) : ChirpTrack :=
  mkChirpTrack (tr_name t) (channel t) v (tr_other t)
    (tr_qticks_notes t) (tr_qticks_durations t).
Definition set_tr_other (v : list OtherMidi) (t : ChirpTrack) : ChirpTrack :=
  mkChirpTrack (tr_name t) (channel t) (notes t) v
    (tr_qticks_notes t) (tr_qticks_durations t).
Definition set_tr_qticks_notes (v : Z) (t : ChirpTrack) : ChirpTrack :=
  mkChirpTrack (tr_name t) (channel t) (notes t) (tr_other t)
    v (tr_qticks_durations t).
Definition set_tr_qticks_durations (v : Z) (t : ChirpTrack) : ChirpTrack :=
  mkChirpTrack (tr_name t) (channel t) (notes t) (tr_other t)
    (tr_qticks_notes t) v.

(** The values kept in the [stats] dictionary: a number, or a
    [collections.Counter], held as the list of the elements counted in the
    order they were counted (the Counter is the bag of that list). *)
Inductive stat_value : Type :=
  | StatInt (z : Z)
  | StatCounter (elems : list Z).

(** A song.  [midi_meta_tracks] and [midi_note_tracks] are filled by the
    MIDI importer and read by nothing here. *)
Record ChirpSong : Type := mkChirpSong {
  metadata : SongMetadata;
  qticks_notes : Z;
  qticks_durations : Z;
  tracks : list ChirpTrack;
  other : list OtherMidi;
  time_signature_changes : list TimeSignature;
  key_signature_changes : list KeySignature;
  tempo_changes : list Tempo;
  stats : gmap string stat_value }.

Definition set_qticks_notes (v : Z) (s : ChirpSong) : ChirpSong :=
  mkChirpSong (metadata s) v (qticks_durations s) (tracks s) (other s)
    (time_signature_changes s) (key_signature_changes s) (tempo_changes s)
    (stats s).
Definition set_qticks_durations (v : Z) (s : ChirpSong) : ChirpSong :=
  mkChirpSong (metadata s) (qticks_notes s) v (tracks s) (other s)
    (time_signature_changes s) (key_signature_changes s) (tempo_changes s)
    (stats s).
Definition set_tracks (v : list ChirpTrack) (s : ChirpSong) : ChirpSong :=
  mkChirpSong (metadata s) (qticks_notes s) (qticks_durations s) v (other s)
    (time_signature_changes s) (key_signature_changes s) (tempo_changes s)
    (stats s).
Definition set_other (v : list OtherMidi) (s : ChirpSong) : ChirpSong :=
  mkChirpSong (metadata s) (qticks_notes s) (qticks_durations s) (tracks s) v
    (time_signature_changes s) (key_signature_changes s) (tempo_changes s)
    (stats s).
Definition set_time_signature_changes (v : list TimeSignature)
    (s : ChirpSong) : ChirpSong :=
  mkChirpSong (metadata s) (qticks_notes s) (qticks_durations s) (tracks s)
    (other s) v (key_signature_changes s) (tempo_changes s) (stats s).
Definition set_key_signature_changes (v : list KeySignature)
    (s : ChirpSong) : ChirpSong :=
  mkChirpSong (metadata s) (qticks_notes s) (qticks_durations s) (tracks s)
    (other s) (time_signature_changes s) v (tempo_changes s) (stats s).
Definition set_tempo_changes (v : list Tempo) (s : ChirpSong) : ChirpSong :=
  mkChirpSong (metadata s) (qticks_notes s) (qticks_durations s) (tracks s)
    (other s) (time_signature_changes s) (key_signature_changes s) v (stats s).
Definition set_stats (v : gmap string stat_value) (s : ChirpSong) : ChirpSong :=
  mkChirpSong (metadata s) (qticks_notes s) (qticks_durations s) (tracks s)
    (other s) (time_signature_changes s) (key_signature_changes s)
    (tempo_changes s) v.

(** [stats[k].update(xs)] on a Counter. *)
Definition counter_update (k : string) (xs : list Z)
    (st : gmap string stat_value) : gmap string stat_value :=
  match st !! k with
  | Some (StatCounter c) => <[k := StatCounter (c ++ xs)]> st
  | _ => st
  end.

(** An optional grid argument ([None] by default) as [if qticks:] reads
    it: [None] and [0] are both false. *)
Definition given (arg : option Z) (current : Z) : Z :=
  match arg with
  | Some q => if decide (q = 0) then current else q
  | None => current
  end.

(** ** ChirpTrack *)

(** The body of the note loop of [ChirpTrack.quantize], on one note; it
    returns the two changes appended to the statistics. *)
Definition quantize_note (qn qd : Z) : M Note (Z * Z) := λ n,
  let start_before := start_time n in
  let duration_before := duration n in
  match quantize_fn (start_time n) qn with
  | Ok s =>
      let n := set_start_time s n in
      match quantize_fn (duration n) qd with
      | Ok d =>
          let n := set_duration d n in
          let n := if decide (duration n < qd) then set_duration qd n else n in
          (Ok (start_time n - start_before, duration n - duration_before), n)
      | Raise e => (Raise e, n)
      | Diverge => (Diverge, n)
      end
  | Raise e => (Raise e, n)
  | Diverge => (Diverge, n)
  end.

Definition quantize_other (qn : Z) : M OtherMidi () := λ m,
  match quantize_fn (om_start_time m) qn with
  | Ok s => (Ok (), mkOtherMidi s (om_msg m))
  | Raise e => (Raise e, m)
  | Diverge => (Diverge, m)
  end.

Definition unzip_changes (l : list (Z * Z)) : list Z * list Z :=
  (l.*1, l.*2).

(** [ChirpTrack.quantize]; when a note stops the loop, the changes of the
    notes before it are lost with the local lists that held them. *)
Definition ChirpTrack_quantize (arg_notes arg_durations : option Z)
    : M ChirpTrack (list Z * list Z) :=
  let* _ := st_modify (λ t, set_tr_qticks_notes (given arg_notes (tr_qticks_notes t)) t) in
  let* _ := st_modify (λ t, set_tr_qticks_durations
                            (given arg_durations (tr_qticks_durations t)) t) in
  let* qn := st_gets tr_qticks_notes in
  let* qd := st_gets tr_qticks_durations in
  let* changes := for_field notes set_notes (quantize_note qn qd) in
  let* _ := for_field tr_other set_tr_other (quantize_other qn) in
  st_ret (unzip_changes changes).

(** The loop of [remove_polyphony] over [notes[1:]] with [last] the note
    in hand; it gives [ret_notes] and the two counters. *)
Fixpoint remove_polyphony_loop (last : Note) (ns : list Note)
    (deleted truncated : Z) : list Note * Z * Z :=
  match ns with
  | [] => ([last], deleted, truncated)
  | n :: ns' =>
      if decide (start_time n = start_time last) then
        remove_polyphony_loop last ns' (deleted + 1) truncated
      else
        let '(last, truncated) :=
          if decide (start_time n < start_time last + duration last)
          then (set_duration (start_time n - start_time last) last, truncated + 1)
          else (last, truncated) in
        let deleted := if decide (duration last ≤ 0) then deleted + 1 else deleted in
        let '(ret_notes, deleted, truncated) :=
          remove_polyphony_loop n ns' deleted truncated in
        (last :: ret_notes, deleted, truncated)
  end.

(** The sort key [(n.start_time, -n.note_num)]. *)
Definition note_key (n : Note) : Z * Z := (start_time n, - note_num n).
Definition note_key_le (a b : Note) : bool := pair_le (note_key a) (note_key b).

Definition ChirpTrack_remove_polyphony : M ChirpTrack (Z * Z) := λ t,
  match notes t with
  | [] => (Raise IndexError, t)
  | last :: ns =>
      let '(ret_notes, deleted, truncated) := remove_polyphony_loop last ns 0 0 in
      (Ok (deleted, truncated), set_notes (py_sorted note_key_le ret_notes) t)
  end.

(** [moreit.pairwise]. *)
Fixpoint pairwise {A} (l : list A) : list (A * A) :=
  match l with
  | a :: (b :: _) as l' => (a, b) :: pairwise l'
  | _ => []
  end.

Definition ChirpTrack_is_polyphonic (t : ChirpTrack) : bool :=
  existsb (λ '(a, b), bool_decide (start_time b - start_time a < duration a))
    (pairwise (notes t)).

(** [all(... for n in notes)], left to right, stopping at the first note
    that fails the test. *)
Fixpoint is_quantized_notes (qn qd : Z) (ns : list Note) : result bool :=
  match ns with
  | [] => Ok true
  | n :: ns' =>
      r ← pymod (start_time n) qn;
      if decide (r = 0) then
        r ← pymod (duration n) qd;
        if decide (r = 0) then is_quantized_notes qn qd ns' else Ok false
      else Ok false
  end.

Definition ChirpTrack_is_quantized (t : ChirpTrack) : result bool :=
  is_quantized_notes (tr_qticks_notes t) (tr_qticks_durations t) (notes t).

Definition modulate_other (num denom : Z) : M OtherMidi () := λ m,
  match floordiv (om_start_time m * num) denom with
  | Ok t => (Ok (), mkOtherMidi t (om_msg m))
  | Raise e => (Raise e, m)
  | Diverge => (Diverge, m)
  end.

Definition modulate_note (num denom : Z) : M Note () := λ n,
  match floordiv (start_time n * num) denom with
  | Ok s =>
      let n := set_start_time s n in
      match floordiv (duration n * num) denom with
      | Ok d => (Ok (), set_duration d n)
      | Raise e => (Raise e, n)
      | Diverge => (Diverge, n)
      end
  | Raise e => (Raise e, n)
  | Diverge => (Diverge, n)
  end.

Definition ChirpTrack_modulate (num denom : Z) : M ChirpTrack () :=
  let* _ := for_field tr_other set_tr_other (modulate_other num denom) in
  let* _ := for_field notes set_notes (modulate_note num denom) in
  st_ret ().


(** ** ChirpSong *)

(** The arguments of a call as the caller passes them: an integer or a
    list of integers. *)
Inductive pyval : Type :=
  | PInt (z : Z)
  | PList (l : list Z).

(** A call of [find_quantization(time_series, ppq)] on given arguments.
    With anything but a list and an integer in this order, [len] of an
    integer or [//] on a list raises [TypeError], as does a wrong number
    of arguments. *)
Definition call_find_quantization (args : list pyval) : result Z :=
  match args with
  | [PList time_series; PInt ppq] => find_quantization time_series ppq
  | _ => Raise TypeError
  end.

(** A call of [find_duration_quantization(durations, qticks_note)] on
    given arguments; with two lists the division is what raises. *)
Definition call_find_duration_quantization (args : list pyval) : result Z :=
  match args with
  | [PList durations; PInt qticks_note] =>
      find_duration_quantization durations qticks_note
  | [PList durations; PList _] =>
      min_length ← py_min durations;
      if decide (¬ (min_length > 0)) then Raise ChiptuneSAKQuantizationError
      else Raise TypeError
  | _ => Raise TypeError
  end.

Definition all_notes (s : ChirpSong) : list Note :=
  t ← tracks s; notes t.

Section estimate_quantization.
(** What the global names [find_quantization] and
    [find_duration_quantization] are bound to when the method runs. *)
Variable find_quantization_fn : list pyval → result Z.
Variable find_duration_quantization_fn : list pyval → result Z.

(** The body of [ChirpSong.estimate_quantization]. *)
Definition estimate_quantization_body : M ChirpSong (Z * Z) :=
  let* tmp_notes := st_gets (λ s, start_time <$> all_notes s) in
  let* the_ppq := st_gets (λ s, ppq (metadata s)) in
  let* q := st_lift (find_quantization_fn [PInt the_ppq; PList tmp_notes]) in
  let* _ := st_modify (set_qticks_notes q) in
  let* tmp_durations := st_gets (λ s, duration <$> all_notes s) in
  let* qn := st_gets qticks_notes in
  let* q := st_lift (find_duration_quantization_fn
                     [PInt the_ppq; PList tmp_durations; PInt qn]) in
  let* _ := st_modify (set_qticks_durations q) in
  let* _ := st_modify (λ s, if decide (qticks_durations s < qticks_notes s)
                          then set_qticks_durations (qticks_notes s `div` 2) s
                          else s) in
  st_gets (λ s, (qticks_notes s, qticks_durations s)).
End estimate_quantization.

(** [ChirpSong.estimate_quantization] with the functions of
    [ctsBase.py]. *)
Definition ChirpSong_estimate_quantization : M ChirpSong (Z * Z) :=
  estimate_quantization_body call_find_quantization
    call_find_duration_quantization.

Definition quantize_tempo (qn : Z) : M Tempo () := λ m,
  match quantize_fn (tm_start_time m) qn with
  | Ok t => (Ok (), mkTempo t (tm_bpm m))
  | Raise e => (Raise e, m)
  | Diverge => (Diverge, m)
  end.

Definition quantize_time_signature (qn : Z) : M TimeSignature () := λ m,
  match quantize_fn (ts_start_time m) qn with
  | Ok t => (Ok (), mkTimeSignature t (ts_num m) (ts_denom m))
  | Raise e => (Raise e, m)
  | Diverge => (Diverge, m)
  end.

Definition quantize_key_signature (qn : Z) : M KeySignature () := λ m,
  match quantize_fn (ks_start_time m) qn with
  | Ok t => (Ok (), mkKeySignature t (ks_key m))
  | Raise e => (Raise e, m)
  | Diverge => (Diverge, m)
  end.

(** The loop of [ChirpSong.quantize] over the tracks.  Each track that
    returns has its changes added to the two counters before the next
    one runs, so they are counted also when a later track raises. *)
Definition quantize_tracks : M ChirpSong () := λ s,
  let '(changes, r, ts) :=
    for_each (ChirpTrack_quantize (Some (qticks_notes s))
                (Some (qticks_durations s))) (tracks s) in
  let s := set_tracks ts s in
  let s := set_stats
             (counter_update "Duration Deltas" (concat (changes.*2))
                (counter_update "Note Start Deltas" (concat (changes.*1))
                   (stats s))) s in
  (r, s).

Definition ChirpSong_quantize (arg_notes arg_durations : option Z)
    : M ChirpSong () :=
  let* _ := st_modify (λ s, set_stats
                            (<["Note Start Deltas" := StatCounter []]> (stats s)) s) in
  let* _ := st_modify (λ s, set_stats
                            (<["Duration Deltas" := StatCounter []]> (stats s)) s) in
  let* _ := st_modify (λ s, set_qticks_notes (given arg_notes (qticks_notes s)) s) in
  let* _ := st_modify (λ s, set_qticks_durations
                            (given arg_durations (qticks_durations s)) s) in
  let* _ := quantize_tracks in
  let* qn := st_gets qticks_notes in
  let* _ := for_field tempo_changes set_tempo_changes (quantize_tempo qn) in
  let* _ := for_field time_signature_changes set_time_signature_changes
              (quantize_time_signature qn) in
  let* _ := for_field key_signature_changes set_key_signature_changes
              (quantize_key_signature qn) in
  let* _ := for_field other set_other (quantize_other qn) in
  st_ret ().

(** The statements of [ChirpSong.quantize] after the grid fields are
    set. *)
Abbreviation quantize_tail :=
  (let* _ := quantize_tracks in
   let* qn := st_gets qticks_notes in
   let* _ := for_field tempo_changes set_tempo_changes (quantize_tempo qn) in
   let* _ := for_field time_signature_changes set_time_signature_changes
               (quantize_time_signature qn) in
   let* _ := for_field key_signature_changes set_key_signature_changes
               (quantize_key_signature qn) in
   let* _ := for_field other set_other (quantize_other qn) in
   st_ret ()).

(** [any(t.is_polyphonic() for t in self.tracks)]. *)
Definition ChirpSong_is_polyphonic (s : ChirpSong) : bool :=
  existsb ChirpTrack_is_polyphonic (tracks s).

(** [all(t.is_quantized() for t in self.tracks)], track by track. *)
Fixpoint is_quantized_tracks (ts : list ChirpTrack) : result bool :=
  match ts with
  | [] => Ok true
  | t :: ts' =>
      b ← ChirpTrack_is_quantized t;
      if b : bool then is_quantized_tracks ts' else Ok false
  end.

Definition ChirpSong_is_quantized (s : ChirpSong) : result bool :=
  is_quantized_tracks (tracks s).

Definition modulate_time_signature (num denom : Z) : M TimeSignature () := λ ts,
  (Ok (), mkTimeSignature (ts_start_time ts) (ts_num ts * num) (ts_denom ts * denom)).

Definition modulate_tempo (num denom : Z) : M Tempo () := λ tm,
  match floordiv (tm_start_time tm * num) denom with
  | Ok t =>
      match floordiv (tm_bpm tm * num) denom with
      | Ok b => (Ok (), mkTempo t b)
      | Raise e => (Raise e, tm)
      | Diverge => (Diverge, tm)
      end
  | Raise e => (Raise e, tm)
  | Diverge => (Diverge, tm)
  end.

(** [ChirpSong.modulate].  The locals [n] and [d] of its last two
    statements are those the first loop unpacked from the last time
    signature, before it was rebuilt; with no time signature they were
    never assigned. *)
Definition ChirpSong_modulate (num denom : Z) : M ChirpSong () :=
  let* nd := st_gets (λ s, (λ ts, (ts_num ts, ts_denom ts))
                           <$> last (time_signature_changes s)) in
  let* _ := for_field time_signature_changes set_time_signature_changes
              (modulate_time_signature num denom) in
  let* _ := for_field tempo_changes set_tempo_changes (modulate_tempo num denom) in
  let* _ := for_field other set_other (modulate_other num denom) in
  let* _ := for_field tracks set_tracks (ChirpTrack_modulate num denom) in
  match nd with
  | None => st_raise UnboundLocalError
  | Some (n, d) =>
      let* q := st_gets qticks_notes in
      let* q := st_lift (floordiv (q * n) d) in
      let* _ := st_modify (set_qticks_notes q) in
      let* q := st_gets qticks_durations in
      let* q := st_lift (floordiv (q * n) d) in
      st_modify (set_qticks_durations q)
  end.

Definition end_time (s : ChirpSong) : result Z :=
  py_max ((λ n, start_time n + duration n) <$> all_notes s).

Definition ts_tuple (ts : TimeSignature) : Z * Z * Z :=
  (ts_start_time ts, ts_num ts, ts_denom ts).
Definition ts_le (a b : TimeSignature) : bool :=
  triple_le (ts_tuple a) (ts_tuple b).

(** The position [t, m, b] of the beat walk of [measures_and_beats]. *)
Record beat_pos : Type := mkBeatPos { bp_t : Z; bp_m : Z; bp_b : Z }.

(** One round of a [while] loop of [measures_and_beats] after the beat
    is appended: the step to the next beat under [last]. *)
Definition next_beat (step : Z) (last : TimeSignature) (p : beat_pos) : beat_pos :=
  let t := bp_t p + step in
  let b := bp_b p + 1 in
  if decide (b > ts_num last) then mkBeatPos t (bp_m p + 1) 1
  else mkBeatPos t (bp_m p) b.

(** [while t < limit] with a positive [step]: the beats appended and the
    position at which the loop is left.  [fuel] bounds the rounds. *)
Fixpoint beat_rounds (fuel : nat) (step : Z) (last : TimeSignature) (limit : Z)
    (p : beat_pos) : list Beat * beat_pos :=
  match fuel with
  | O => ([], p)
  | S fuel' =>
      if decide (bp_t p < limit) then
        let '(bs, p') := beat_rounds fuel' step last limit (next_beat step last p) in
        (mkBeat (bp_t p) (bp_m p) (bp_b p) :: bs, p')
      else ([], p)
  end.

(** The loop as it runs: not entered when [t] has reached the limit;
    otherwise the step [(ppq * 4) // last.denom] is computed in the first
    round, and a step that is not positive never brings [t] to the
    limit.  A positive step does within [limit - t] rounds. *)
Definition beat_while (the_ppq : Z) (last : TimeSignature) (limit : Z)
    (p : beat_pos) : result (list Beat * beat_pos) :=
  if decide (bp_t p < limit) then
    step ← floordiv (the_ppq * 4) (ts_denom last);
    if decide (step ≤ 0) then Diverge
    else Ok (beat_rounds (Z.to_nat (limit - bp_t p)) step last limit p)
  else Ok ([], p).

(** [for s in time_signature_changes: while t < s.start_time: ...;
    last = s]. *)
Fixpoint beats_for (the_ppq : Z) (tsc : list TimeSignature)
    (last : TimeSignature) (p : beat_pos)
    : result (list Beat * TimeSignature * beat_pos) :=
  match tsc with
  | [] => Ok ([], last, p)
  | s :: tsc' =>
      r1 ← beat_while the_ppq last (ts_start_time s) p;
      r2 ← beats_for the_ppq tsc' s r1.2;
      Ok (r1.1 ++ r2.1.1, r2.1.2, r2.2)
  end.

Definition ChirpSong_measures_and_beats : M ChirpSong (list Beat) :=
  let* max_time := (λ s, (end_time s, s)) in
  let* tsc := st_gets (λ s, py_sorted ts_le (time_signature_changes s)) in
  match tsc with
  | [] => st_raise ChiptuneSAKValueError
  | first :: _ =>
      if decide (ts_start_time first ≠ 0) then st_raise ChiptuneSAKValueError
      else
        let* the_ppq := st_gets (λ s, ppq (metadata s)) in
        let* r1 := st_lift (beats_for the_ppq tsc first (mkBeatPos 0 1 1)) in
        (* [t <= max_time] *)
        let* r2 := st_lift (beat_while the_ppq r1.1.2 (max_time + 1) r1.2) in
        let* _ := st_modify (λ s, set_stats
                     (<["Measures" := StatInt (bp_m r2.2)]> (stats s)) s) in
        st_ret (r1.1.1 ++ r2.1)
  end.

Definition ChirpSong_measure_starts : M ChirpSong (list Z) :=
  let* beats := ChirpSong_measures_and_beats in
  st_ret (b_start_time <$> filter (λ m, b_beat m = 1) beats).


(** ** ctsExportUtil.py *)

(** Modelled from the spec: the module [ctsSong], whose classes the
    measure populator builds and tells apart with [isinstance], is not
    among the sources.  The spec's closed union of timeline events stands
    for them: a note, a rest, a measure marker, the three song-wide
    events, a program change, and any other event.  [ctsSong.Note] is
    built as [Note(note_num, start, duration, velocity, tied)], the order
    in which the populator passes its arguments, and the song is the
    [ChirpSong] above, whose [measure_starts] the populator calls. *)
Inductive item : Type :=
  | INote (n : Note)
  | IRest (start dur : Z)
  | IMeasureMarker (start measure_number : Z)
  | ITimeSignature (ts : TimeSignature)
  | IKeySignature (ks : KeySignature)
  | ITempo (tm : Tempo)
  | IProgram (start program : Z)
  | IOtherMidi (m : OtherMidi).

Global Instance item_eq_dec : EqDecision item.
Proof. solve_decision. Defined.

Definition sort_order (c : item) : Z * Z :=
  match c with
  | INote n => (start_time n, 10)
  | IRest start _ => (start, 10)
  | IMeasureMarker start _ => (start, 0)
  | ITimeSignature ts => (ts_start_time ts, 1)
  | IKeySignature ks => (ks_start_time ks, 2)
  | ITempo tm => (tm_start_time tm, 3)
  | IProgram start _ => (start, 4)
  | IOtherMidi m => (om_start_time m, 5)
  end.

Definition item_le (a b : item) : bool := pair_le (sort_order a) (sort_order b).

(** [if carry: ...]: the note carried over from the measure before.  It
    gives the items appended, [last_note_end] and the new carry. *)
Definition place_carry (start end_ : Z) (carry : option Note)
    : result (list item * Z * option Note) :=
  match carry with
  | None => Ok ([], start, None)
  | Some carry =>
      let carry := set_start_time start carry in
      let carry_end := start + duration carry in
      if decide (duration carry ≤ 0) then Raise ChiptuneSAKValueError
      else if decide (carry_end > end_) then
        Ok ([INote (mkNote (note_num carry) start (end_ - start) 100 true)],
            end_,
            Some (set_duration (duration carry - (end_ - start)) carry))
      else Ok ([INote carry], start + duration carry, None)
  end.

(** What the note loop of one measure leaves: the items appended, the
    notes it went through (as it left them in the track), the notes not
    reached yet, [last_note_end] and the carry. *)
Record placed : Type := mkPlaced {
  pl_items : list item;
  pl_done : list Note;
  pl_todo : list Note;
  pl_last_note_end : Z;
  pl_carry : option Note }.

(** [while inote < n_notes and track.notes[inote].start_time < end];
    [todo] is [track.notes[inote:]]. *)
Fixpoint place_notes (end_ : Z) (todo : list Note) (last_note_end : Z)
    (carry : option Note) : placed :=
  match todo with
  | [] => mkPlaced [] [] [] last_note_end carry
  | n :: todo' =>
      if decide (start_time n < end_) then
        let gap := start_time n - last_note_end in
        let rest := if decide (gap > 0) then [IRest last_note_end gap] else [] in
        let last_note_end :=
          if decide (gap > 0) then start_time n else last_note_end in
        let note_end := start_time n + duration n in
        if decide (note_end ≤ end_) then
          let r := place_notes end_ todo' note_end carry in
          mkPlaced (rest ++ INote n :: pl_items r) (n :: pl_done r) (pl_todo r)
            (pl_last_note_end r) (pl_carry r)
        else
          let carry := n in
          let duration_ := end_ - start_time n in
          let n := set_tied true (set_duration duration_ n) in
          let carry := set_duration (duration carry - duration_) carry in
          let r := place_notes end_ todo' end_ (Some carry) in
          mkPlaced (rest ++ INote n :: pl_items r) (n :: pl_done r) (pl_todo r)
            (pl_last_note_end r) (pl_carry r)
      else mkPlaced [] [] todo last_note_end carry
  end.

Definition in_window (start end_ t : Z) : bool :=
  bool_decide (start ≤ t) && bool_decide (t < end_).

Definition track_event (m : OtherMidi) : item :=
  if decide (msg_type (om_msg m) = "program_change")
  then IProgram (om_start_time m) (msg_program (om_msg m))
  else IOtherMidi m.

(** The four loops that add the events of the track and of the song to
    the measure, in the order they run. *)
Definition measure_events (song : ChirpSong) (track_other : list OtherMidi)
    (start end_ : Z) : list item :=
  (track_event <$> filter (λ m, in_window start end_ (om_start_time m)) track_other)
  ++ ((λ ks, IKeySignature (mkKeySignature start (ks_key ks)))
        <$> filter (λ ks, in_window start end_ (ks_start_time ks))
              (key_signature_changes song))
  ++ ((λ ts, ITimeSignature (mkTimeSignature start (ts_num ts) (ts_denom ts)))
        <$> filter (λ ts, in_window start end_ (ts_start_time ts))
              (time_signature_changes song))
  ++ ((λ tm, ITempo (mkTempo (tm_start_time tm) (tm_bpm tm)))
        <$> filter (λ tm, in_window start end_ (tm_start_time tm))
              (tempo_changes song))
  ++ (IOtherMidi <$> filter (λ m, in_window start end_ (om_start_time m))
                       (other song)).

(** The contents of one measure before sorting, from the carry and the
    notes placed in it. *)
Definition collect_measure (song : ChirpSong) (track_other : list OtherMidi)
    (start end_ imeasure : Z) (carry_items : list item) (r : placed) : list item :=
  let gap := end_ - pl_last_note_end r in
  let closing := if decide (gap > 0) then [IRest (pl_last_note_end r) gap] else [] in
  IMeasureMarker start imeasure
    :: carry_items ++ pl_items r ++ closing
       ++ measure_events song track_other start end_.

(** [for start, end in moreit.pairwise(measure_starts)]: the measures,
    and the notes of the track as the loop leaves them. *)
Fixpoint populate_loop (song : ChirpSong) (track_other : list OtherMidi)
    (bounds : list (Z * Z)) (imeasure : Z) (todo : list Note)
    (carry : option Note) : result (list (list item)) * list Note :=
  match bounds with
  | [] => (Ok [], todo)
  | (start, end_) :: bounds' =>
      let imeasure := imeasure + 1 in
      match place_carry start end_ carry with
      | Ok (carry_items, last_note_end, carry) =>
          let r := place_notes end_ todo last_note_end carry in
          let current_measure :=
            py_sorted item_le
              (collect_measure song track_other start end_ imeasure carry_items r) in
          let '(ms, notes') :=
            populate_loop song track_other bounds' imeasure (pl_todo r) (pl_carry r) in
          ((λ ms, current_measure :: ms) <$> ms, pl_done r ++ notes')
      | Raise e => (Raise e, todo)
      | Diverge => (Diverge, todo)
      end
  end.

(** [measure_starts.append(2 * measure_starts[-1] - measure_starts[-2])]. *)
Definition extend_measure_starts (measure_starts : list Z) : result (list Z) :=
  match reverse measure_starts with
  | [] => Raise IndexError
  | [_] => Raise IndexError
  | last :: before :: _ => Ok (measure_starts ++ [2 * last - before])
  end.

(** [populate_measures(song, track)].  The state is the song and the
    track; the song is changed by [measure_starts] alone, and the track's
    notes by the truncation of the notes that cross a measure end. *)
Definition populate_measures : M (ChirpSong * ChirpTrack) (list (list item)) :=
  λ '(song, track),
    match ChirpSong_measure_starts song with
    | (Ok measure_starts, song) =>
        match extend_measure_starts measure_starts with
        | Ok measure_starts =>
            let '(r, notes') :=
              populate_loop song (tr_other track) (pairwise measure_starts) 0
                (notes track) None in
            (r, (song, set_notes notes' track))
        | Raise e => (Raise e, (song, track))
        | Diverge => (Diverge, (song, track))
        end
    | (Raise e, song) => (Raise e, (song, track))
    | (Diverge, song) => (Diverge, (song, track))
    end.

Definition is_note (e : item) : bool :=
  match e with INote _ => true | _ => false end.

Definition count_notes (measure : list item) : Z :=
  Z.of_nat (length (filter is_note measure)).

(** [all(count_notes(m[-1]) == 0 for m in measures_list)]. *)
Fixpoint all_last_note_free (measures_list : list (list (list item))) : result bool :=
  match measures_list with
  | [] => Ok true
  | m :: ml =>
      match last m with
      | None => Raise IndexError
      | Some x => if decide (count_notes x = 0) then all_last_note_free ml else Ok false
      end
  end.

Fixpoint trim_loop (fuel : nat) (measures_list : list (list (list item)))
    : result (list (list (list item))) :=
  b ← all_last_note_free measures_list;
  if b : bool then
    match fuel with
    | O => Diverge
    | S fuel' => trim_loop fuel' ((λ m, removelast m) <$> measures_list)
    end
  else Ok measures_list.

(** [trim_measures].  With no track at all the test of the loop is true
    and nothing is popped, for ever; otherwise each round shortens the
    first track's list, and the test raises on an empty one. *)
Definition trim_measures (measures_list : list (list (list item)))
    : result (list (list (list item))) :=
  match measures_list with
  | [] => Diverge
  | m :: _ => trim_loop (S (length m)) measures_list
  end.

(** [[populate_measures(song, t) for t in song.tracks]]: the track at
    index [i] is an object of the song, so what the populator does to it
    is done to the song the next call reads. *)
Fixpoint populate_tracks (fuel : nat) (i : nat) : M ChirpSong (list (list (list item))) :=
  λ song,
    match fuel with
    | O => (Ok [], song)
    | S fuel' =>
        match tracks song !! i with
        | None => (Ok [], song)
        | Some t =>
            match populate_measures (song, t) with
            | (Ok ms, (song, t)) =>
                let song := set_tracks (<[i := t]> (tracks song)) song in
                let '(r, song) := populate_tracks fuel' (S i) song in
                ((λ mss, ms :: mss) <$> r, song)
            | (Raise e, (song, t)) =>
                (Raise e, set_tracks (<[i := t]> (tracks song)) song)
            | (Diverge, (song, t)) =>
                (Diverge, set_tracks (<[i := t]> (tracks song)) song)
            end
        end
    end.

Definition get_measures : M ChirpSong (list (list (list item))) :=
  let* n := st_gets (λ song, length (tracks song)) in
  let* all_measures := populate_tracks n 0 in
  st_lift (trim_measures all_measures).

(** ** The results in closed form *)

(** What [ChirpTrack.quantize] makes of a note, of an event and of a
    track when both grids are positive. *)
Definition snap_duration (d qd : Z) : Z :=
  if decide (snap d qd < qd) then qd else snap d qd.

Definition snap_note (qn qd : Z) (n : Note) : Note :=
  mkNote (note_num n) (snap (start_time n) qn) (snap_duration (duration n) qd)
    (velocity n) (tied n).

Definition note_changes (qn qd : Z) (n : Note) : Z * Z :=
  (snap (start_time n) qn - start_time n,
   snap_duration (duration n) qd - duration n).

Definition snap_other (qn : Z) (m : OtherMidi) : OtherMidi :=
  mkOtherMidi (snap (om_start_time m) qn) (om_msg m).

Definition snap_track (qn qd : Z) (t : ChirpTrack) : ChirpTrack :=
  mkChirpTrack (tr_name t) (channel t) (snap_note qn qd <$> notes t)
    (snap_other qn <$> tr_other t) qn qd.

Definition track_changes (qn qd : Z) (t : ChirpTrack) : list Z * list Z :=
  unzip_changes (note_changes qn qd <$> notes t).

(** What [ChirpSong.quantize] makes of the song-wide events and of the
    song when both grids are positive. *)
Definition snap_tempo (qn : Z) (m : Tempo) : Tempo :=
  mkTempo (snap (tm_start_time m) qn) (tm_bpm m).
Definition snap_time_signature (qn : Z) (m : TimeSignature) : TimeSignature :=
  mkTimeSignature (snap (ts_start_time m) qn) (ts_num m) (ts_denom m).
Definition snap_key_signature (qn : Z) (m : KeySignature) : KeySignature :=
  mkKeySignature (snap (ks_start_time m) qn) (ks_key m).

(** The two counters after a call that counted the changes [ns] of the
    note starts and [ds] of the durations. *)
Definition delta_stats (ns ds : list Z) (st : gmap string stat_value)
    : gmap string stat_value :=
  <["Duration Deltas" := StatCounter ds]>
    (<["Note Start Deltas" := StatCounter ns]> st).

Definition song_changes (qn qd : Z) (s : ChirpSong) : list (list Z * list Z) :=
  track_changes qn qd <$> tracks s.

Definition snap_song (qn qd : Z) (s : ChirpSong) : ChirpSong :=
  mkChirpSong (metadata s) qn qd
    (snap_track qn qd <$> tracks s)
    (snap_other qn <$> other s)
    (snap_time_signature qn <$> time_signature_changes s)
    (snap_key_signature qn <$> key_signature_changes s)
    (snap_tempo qn <$> tempo_changes s)
    (delta_stats (concat ((song_changes qn qd s).*1))
       (concat ((song_changes qn qd s).*2)) (stats s)).

(** ** Sample songs *)

(** The metadata a new [ChirpSong] starts with. *)
Definition sample_metadata : SongMetadata :=
  mkSongMetadata 960 "" "" "" (mkTimeSignature 0 4 4) (mkKeySignature 0 "C") 112.

(** A new track of a new song, given its notes. *)
Definition sample_track (ns : list Note) : ChirpTrack :=
  mkChirpTrack "none" 0 ns [] 960 960.

(** A new song with one track, given its notes and time signatures. *)
Definition sample_song (ns : list Note) (tsc : list TimeSignature) : ChirpSong :=
  mkChirpSong sample_metadata 960 960 [sample_track ns] [] tsc [] [] ∅.

(** One quarter note played a sixteenth late. *)
Definition late_note_song : ChirpSong :=
  sample_song [mkNote 60 240 960 100 false] [mkTimeSignature 0 4 4].

(** Four sixteenth notes on a sixteenth grid, in a new song (whose
    stored grids are the quarter note, 960 ticks). *)
Definition sixteenths : list Note :=
  [mkNote 60 0 240 100 false; mkNote 62 240 240 100 false;
   mkNote 64 480 240 100 false; mkNote 65 720 240 100 false].

Definition sixteenths_song : ChirpSong :=
  sample_song sixteenths [mkTimeSignature 0 4 4].

(** ** Grid discovery as the spec words it *)

(** The grids the searches of [ctsBase.py] find for a song, each search
    given the arguments its definition names, combined as
    [estimate_quantization] combines them. *)
Definition discovered_grids (s : ChirpSong) : result (Z * Z) :=
  qn ← find_quantization (start_time <$> all_notes s) (ppq (metadata s));
  qd ← find_duration_quantization (duration <$> all_notes s) qn;
  Ok (qn, if decide (qd < qn) then qn `div` 2 else qd).

(** [quantize] with both grids omitted as the spec has it: the grids are
    discovered first, then the song is snapped to them. *)
Definition quantize_after_discovery : M ChirpSong () := λ s,
  match discovered_grids s with
  | Ok (qn, qd) => ChirpSong_quantize (Some qn) (Some qd) s
  | Raise e => (Raise e, s)
  | Diverge => (Diverge, s)
  end.

(** The two searches behind adapters that take the arguments as
    [estimate_quantization] passes them and hand them on in the order
    and number the definitions in [ctsBase.py] declare. *)
Definition find_quantization_as_declared (args : list pyval) : result Z :=
  match args with
  | [the_ppq; time_series] => call_find_quantization [time_series; the_ppq]
  | _ => Raise TypeError
  end.

Definition find_duration_quantization_as_declared (args : list pyval) : result Z :=
  match args with
  | [_; durations; qticks_note] =>
      call_find_duration_quantization [durations; qticks_note]
  | _ => Raise TypeError
  end.

(** What [modulate] makes of a tick value, a note, an event, a track
    and a song when [denom] is not zero; [n] and [d] are the numerator
    and the denominator of the song's last time signature. *)
Definition scale (num denom t : Z) : Z := (t * num) `div` denom.

Definition modulated_note (num denom : Z) (n : Note) : Note :=
  mkNote (note_num n) (scale num denom (start_time n))
    (scale num denom (duration n)) (velocity n) (tied n).

Definition modulated_other (num denom : Z) (m : OtherMidi) : OtherMidi :=
  mkOtherMidi (scale num denom (om_start_time m)) (om_msg m).

Definition modulated_tempo (num denom : Z) (tm : Tempo) : Tempo :=
  mkTempo (scale num denom (tm_start_time tm)) (scale num denom (tm_bpm tm)).

Definition modulated_time_signature (num denom : Z) (ts : TimeSignature)
    : TimeSignature :=
  mkTimeSignature (ts_start_time ts) (ts_num ts * num) (ts_denom ts * denom).

Definition modulated_track (num denom : Z) (t : ChirpTrack) : ChirpTrack :=
  mkChirpTrack (tr_name t) (channel t) (modulated_note num denom <$> notes t)
    (modulated_other num denom <$> tr_other t)
    (tr_qticks_notes t) (tr_qticks_durations t).

Definition modulated_song (num denom n d : Z) (s : ChirpSong) : ChirpSong :=
  mkChirpSong (metadata s)
    ((qticks_notes s * n) `div` d)
    ((qticks_durations s * n) `div` d)
    (modulated_track num denom <$> tracks s)
    (modulated_other num denom <$> other s)
    (modulated_time_signature num denom <$> time_signature_changes s)
    (key_signature_changes s)
    (modulated_tempo num denom <$> tempo_changes s)
    (stats s).

(** Four sixteenth notes under a 4/4 signature that changes to 3/4 at
    tick 3840. *)
Definition two_signature_song : ChirpSong :=
  sample_song sixteenths [mkTimeSignature 0 4 4; mkTimeSignature 3840 3 4].

(** The earliest start tick among time signatures, if there is any. *)
Definition earliest_start (tsc : list TimeSignature) : option Z :=
  match ts_start_time <$> tsc with
  | [] => None
  | x :: l => Some (foldl Z.min x l)
  end.

(** A whole note in common time: the last note ends at tick 3840. *)
Definition whole_note_song : ChirpSong :=
  sample_song [mkNote 60 0 3840 100 false] [mkTimeSignature 0 4 4].

(** The beat number [i] (from 0) of a song in 4/4 with 960 ticks to the
    quarter note. *)
Definition common_time_beat (i : Z) : Beat :=
  mkBeat (960 * i) (i `div` 4 + 1) (i `mod` 4 + 1).

(** ** Monophony *)

(** [b] starts after [a] has started and not before [a] has ended. *)
Definition follows (a b : Note) : Prop :=
  start_time a < start_time b ∧ start_time a + duration a ≤ start_time b.

(** Every note of the list starts no earlier than the note before it
    ends. *)
Definition monophonic (l : list Note) : Prop :=
  ∀ (i : nat) (a b : Note),
    l !! i = Some a → l !! S i = Some b →
    start_time a + duration a ≤ start_time b.

(** The notes are in the order of their start ticks. *)
Definition time_ascending (l : list Note) : Prop :=
  Sorted (λ a b, start_time a ≤ start_time b) l.

(** A chord of two notes and a third note struck while it sounds. *)
Definition chord_track : ChirpTrack :=
  sample_track [mkNote 60 0 960 100 false; mkNote 64 0 960 100 false;
                mkNote 67 480 960 100 false].

(** ** The order of a measure *)

(** The two parts of the sort key of an item: its tick and its rank. *)
Definition tick (c : item) : Z := (sort_order c).1.
Definition priority (c : item) : Z := (sort_order c).2.

(** The items that take up time in a measure: notes and rests. *)
Definition is_timed (c : item) : bool :=
  match c with INote _ | IRest _ _ => true | _ => false end.

(** A half note, a half note tied over the bar line and a quarter note,
    with a tempo change on the third beat. *)
Definition tempo_change_notes : list Note :=
  [mkNote 60 0 1920 100 false; mkNote 62 1920 2880 100 false;
   mkNote 64 5760 960 100 false].

Definition tempo_change_song : ChirpSong :=
  mkChirpSong sample_metadata 960 960 [sample_track tempo_change_notes] []
    [mkTimeSignature 0 4 4] [mkKeySignature 0 "C"]
    [mkTempo 0 120; mkTempo 1920 90] ∅.

(** An item that belongs in the measure that starts at [start]: it is
    not before the start, and its rank is above the marker's. *)
Definition key_ok (start : Z) (c : item) : Prop :=
  start ≤ tick c ∧ 0 < priority c.

(** A note or a rest that belongs in the measure. *)
Definition timed_ok (start : Z) (c : item) : Prop :=
  start ≤ tick c ∧ is_timed c.

(** A note still to be placed when the measure at [start] begins. *)
Definition note_ok (start : Z) (n : Note) : Prop :=
  start ≤ start_time n ∧ 0 < duration n.

(** [last_note_end] inside the measure from [start] to [end_]. *)
Definition end_ok (start end_ last_note_end : Z) : Prop :=
  start ≤ last_note_end ∨ last_note_end = end_.

(** The two measures the populator makes of that song's track. *)
Definition tempo_change_measures : list (list item) :=
  [[IMeasureMarker 0 1;
    ITimeSignature (mkTimeSignature 0 4 4);
    IKeySignature (mkKeySignature 0 "C");
    ITempo (mkTempo 0 120);
    INote (mkNote 60 0 1920 100 false);
    ITempo (mkTempo 1920 90);
    INote (mkNote 62 1920 1920 100 true)];
   [IMeasureMarker 3840 2;
    INote (mkNote 62 3840 960 100 false);
    IRest 4800 960;
    INote (mkNote 64 5760 960 100 false);
    IRest 6720 960]].

(** ** More sample tracks *)

(** A chord listed from its lowest note up. *)
Definition rising_chord_track : ChirpTrack :=
  sample_track [mkNote 60 0 960 100 false; mkNote 64 0 960 100 false;
                mkNote 67 0 960 100 false].

(** * Part II: the properties *)

(** ** quantize_fn *)

Lemma quantize_fn_snap t g : 0 < g → quantize_fn t g = Ok (snap t g).
Proof.
  intros Hg. unfold quantize_fn, floordiv, snap.
  destruct (decide (g = 0)) as [->|_]; [lia|]. simpl.
  pose proof (Z.div_mod t g ltac:(lia)) as Hdm.
  pose proof (Z.mod_pos_bound t g Hg) as Hb.
  assert (Hc : t `div` g * g = t - t `mod` g) by lia.
  assert (Hn : (t `div` g + 1) * g = t - t `mod` g + g) by lia.
  rewrite Hc, Hn.
  destruct (decide (Z.abs _ ≤ Z.abs _)) as [H|H];
    destruct (decide (2 * _ ≤ g)) as [H'|H']; try reflexivity; exfalso; lia.
Qed.

Lemma snap_multiple t g : 0 < g → snap t g `mod` g = 0.
Proof.
  intros Hg. unfold snap.
  pose proof (Z.div_mod t g ltac:(lia)) as Hdm.
  destruct (decide _).
  - replace (t - t `mod` g) with (t `div` g * g) by lia. apply Z.mod_mul; lia.
  - replace (t - t `mod` g + g) with ((t `div` g + 1) * g) by lia.
    apply Z.mod_mul; lia.
Qed.

Lemma snap_fixpoint t g : 0 < g → t `mod` g = 0 → snap t g = t.
Proof.
  intros Hg Hm. unfold snap. rewrite Hm.
  destruct (decide _); lia.
Qed.

Lemma snap_idem t g : 0 < g → snap (snap t g) g = snap t g.
Proof. intros Hg. apply snap_fixpoint, snap_multiple; done. Qed.

Lemma snap_nearest t g k : 0 < g → Z.abs (t - snap t g) ≤ Z.abs (t - k * g).
Proof.
  intros Hg. unfold snap.
  pose proof (Z.div_mod t g ltac:(lia)) as Hdm.
  pose proof (Z.mod_pos_bound t g Hg) as Hb.
  set (q := t `div` g) in *. set (r := t `mod` g) in *.
  assert (Hk : k ≤ q ∨ q + 1 ≤ k) by lia.
  destruct (decide _); destruct Hk; nia.
Qed.

(** C5 as stated fails on a tie: halfway between 0 and 960 the lower
    multiple comes back. *)
Lemma quantize_fn_tie_returns_lower :
  quantize_fn 480 960 = Ok 0 ∧ quantize_fn 480 960 ≠ Ok 960.
Proof. split; [reflexivity | discriminate]. Qed.

(** C5 (amended): for a positive grid [g], [quantize_fn t g] returns a
    multiple of [g] that is at least as near to [t] as any other multiple,
    and when [t] is exactly halfway between two multiples it returns the
    lower (earlier) one. *)
Theorem quantize_fn_nearest_ties_lower (t g : Z) :
  0 < g →
  ∃ r, quantize_fn t g = Ok r
       ∧ r `mod` g = 0
       ∧ (∀ k, Z.abs (t - r) ≤ Z.abs (t - k * g))
       ∧ (2 * (t `mod` g) = g → r = t - t `mod` g ∧ r < t).
Proof.
  intros Hg. exists (snap t g). split; [by apply quantize_fn_snap|].
  split; [by apply snap_multiple|]. split; [intros k; by apply snap_nearest|].
  intros Htie. unfold snap. destruct (decide _); lia.
Qed.

Lemma quantize_fn_nearest_ties_lower_witness :
  0 < 960 ∧
  ∃ r, quantize_fn 1440 960 = Ok r
       ∧ r `mod` 960 = 0
       ∧ (∀ k, Z.abs (1440 - r) ≤ Z.abs (1440 - k * 960))
       ∧ (2 * (1440 `mod` 960) = 960 → r = 1440 - 1440 `mod` 960 ∧ r < 1440).
Proof. split; [lia | apply (quantize_fn_nearest_ties_lower 1440 960); lia]. Defined.

(** ** Loops whose bodies return *)

Lemma for_each_total {A B} (f : M A B) (g : A → B) (h : A → A) (l : list A) :
  Forall (λ x, f x = (Ok (g x), h x)) l →
  for_each f l = (g <$> l, Ok (), h <$> l).
Proof.
  induction 1 as [|x l Hx _ IH]; simpl; [done|].
  by rewrite Hx, IH.
Qed.

Lemma for_field_total {S A B} (get : S → list A) (set : list A → S → S)
    (f : M A B) (g : A → B) (h : A → A) (s : S) :
  Forall (λ x, f x = (Ok (g x), h x)) (get s) →
  for_field get set f s = (Ok (g <$> get s), set (h <$> get s) s).
Proof.
  intros H. unfold for_field. by rewrite (for_each_total f g h).
Qed.

Lemma given_some q current : q ≠ 0 → given (Some q) current = q.
Proof. intros H. unfold given. by destruct (decide (q = 0)). Qed.

Lemma given_current current : given (Some current) current = given None current.
Proof. unfold given. by destruct (decide (current = 0)). Qed.

(** ** Quantization with positive grids *)

Lemma quantize_note_snap qn qd n :
  0 < qn → 0 < qd →
  quantize_note qn qd n = (Ok (note_changes qn qd n), snap_note qn qd n).
Proof.
  intros Hn Hd. unfold quantize_note.
  rewrite (quantize_fn_snap _ qn Hn). simpl.
  rewrite (quantize_fn_snap _ qd Hd). simpl.
  unfold note_changes, snap_note, snap_duration.
  by destruct (decide (snap (duration n) qd < qd)).
Qed.

Lemma quantize_other_snap qn m :
  0 < qn → quantize_other qn m = (Ok (), snap_other qn m).
Proof.
  intros Hn. unfold quantize_other. by rewrite (quantize_fn_snap _ qn Hn).
Qed.

Lemma ChirpTrack_quantize_snap qn qd t :
  0 < qn → 0 < qd →
  ChirpTrack_quantize (Some qn) (Some qd) t
  = (Ok (track_changes qn qd t), snap_track qn qd t).
Proof.
  intros Hn Hd. unfold ChirpTrack_quantize, st_bind, st_modify, st_gets, st_ret.
  rewrite !given_some by lia. cbn [tr_qticks_notes tr_qticks_durations
    set_tr_qticks_notes set_tr_qticks_durations].
  rewrite (for_field_total _ _ _ (note_changes qn qd) (snap_note qn qd)).
  2:{ apply Forall_forall. intros n _. by apply quantize_note_snap. }
  rewrite (for_field_total _ _ _ (λ _, ()) (snap_other qn)).
  2:{ apply Forall_forall. intros m _. by apply quantize_other_snap. }
  reflexivity.
Qed.

Lemma snap_duration_multiple d qd : 0 < qd → snap_duration d qd `mod` qd = 0.
Proof.
  intros Hd. unfold snap_duration. destruct (decide _).
  - apply Z.mod_same; lia.
  - by apply snap_multiple.
Qed.

Lemma snap_duration_idem d qd :
  0 < qd → snap_duration (snap_duration d qd) qd = snap_duration d qd.
Proof.
  intros Hd.
  assert (Hm := snap_duration_multiple d qd Hd).
  assert (Hge : qd ≤ snap_duration d qd).
  { unfold snap_duration. destruct (decide _); lia. }
  unfold snap_duration at 1.
  rewrite (snap_fixpoint _ _ Hd Hm). destruct (decide _); lia.
Qed.

Lemma snap_note_idem qn qd n :
  0 < qn → 0 < qd → snap_note qn qd (snap_note qn qd n) = snap_note qn qd n.
Proof.
  intros Hn Hd. unfold snap_note. simpl.
  by rewrite snap_idem, snap_duration_idem.
Qed.

Lemma snap_other_idem qn m : 0 < qn → snap_other qn (snap_other qn m) = snap_other qn m.
Proof. intros Hn. unfold snap_other. simpl. by rewrite snap_idem. Qed.

Lemma snap_track_idem qn qd t :
  0 < qn → 0 < qd → snap_track qn qd (snap_track qn qd t) = snap_track qn qd t.
Proof.
  intros Hn Hd. unfold snap_track. simpl. f_equal.
  - rewrite <- list_fmap_compose. apply list_fmap_ext.
    intros _ n _. by apply snap_note_idem.
  - rewrite <- list_fmap_compose. apply list_fmap_ext.
    intros _ m _. by apply snap_other_idem.
Qed.

Lemma is_quantized_notes_snap qn qd ns :
  0 < qn → 0 < qd → is_quantized_notes qn qd (snap_note qn qd <$> ns) = Ok true.
Proof.
  intros Hn Hd. induction ns as [|n ns IH]; simpl; [done|].
  unfold pymod. destruct (decide (qn = 0)); [lia|]. simpl.
  rewrite snap_multiple by done.
  destruct (decide (0 = 0)); [|done].
  destruct (decide (qd = 0)); [lia|]. simpl.
  rewrite snap_duration_multiple by done.
  destruct (decide (0 = 0)); done.
Qed.

Lemma is_quantized_tracks_snap qn qd ts :
  0 < qn → 0 < qd → is_quantized_tracks (snap_track qn qd <$> ts) = Ok true.
Proof.
  intros Hn Hd. induction ts as [|t ts IH]; simpl; [done|].
  unfold ChirpTrack_is_quantized. simpl.
  by rewrite is_quantized_notes_snap.
Qed.

Lemma counters_after_reset ns ds (st : gmap string stat_value) :
  counter_update "Duration Deltas" ds
    (counter_update "Note Start Deltas" ns
       (<["Duration Deltas" := StatCounter []]>
          (<["Note Start Deltas" := StatCounter []]> st)))
  = delta_stats ns ds st.
Proof.
  unfold counter_update at 2.
  rewrite lookup_insert_ne by done. rewrite lookup_insert_eq.
  unfold counter_update.
  rewrite lookup_insert_ne by done. rewrite lookup_insert_eq.
  unfold delta_stats. apply map_eq. intros k.
  rewrite !lookup_insert. repeat case_decide; simpl; congruence.
Qed.

Lemma delta_stats_twice ns ds ns' ds' (st : gmap string stat_value) :
  delta_stats ns' ds' (delta_stats ns ds st) = delta_stats ns' ds' st.
Proof.
  unfold delta_stats. apply map_eq. intros k.
  rewrite !lookup_insert. repeat case_decide; congruence.
Qed.

Lemma ChirpSong_quantize_snap qn qd s :
  0 < qn → 0 < qd →
  ChirpSong_quantize (Some qn) (Some qd) s = (Ok (), snap_song qn qd s).
Proof.
  intros Hn Hd.
  unfold ChirpSong_quantize, st_bind, st_modify, st_gets, st_ret, quantize_tracks.
  rewrite !given_some by lia.
  cbn [qticks_notes qticks_durations tracks stats set_stats set_qticks_notes
       set_qticks_durations set_tracks].
  rewrite (for_each_total _ (track_changes qn qd) (snap_track qn qd)).
  2:{ apply Forall_forall. intros t _. by apply ChirpTrack_quantize_snap. }
  cbn [qticks_notes qticks_durations tracks stats set_stats set_qticks_notes
       set_qticks_durations set_tracks].
  rewrite counters_after_reset.
  rewrite (for_field_total _ _ _ (λ _, ()) (snap_tempo qn)).
  2:{ apply Forall_forall. intros m _. unfold quantize_tempo.
      by rewrite (quantize_fn_snap _ qn Hn). }
  rewrite (for_field_total _ _ _ (λ _, ()) (snap_time_signature qn)).
  2:{ apply Forall_forall. intros m _. unfold quantize_time_signature.
      by rewrite (quantize_fn_snap _ qn Hn). }
  rewrite (for_field_total _ _ _ (λ _, ()) (snap_key_signature qn)).
  2:{ apply Forall_forall. intros m _. unfold quantize_key_signature.
      by rewrite (quantize_fn_snap _ qn Hn). }
  rewrite (for_field_total _ _ _ (λ _, ()) (snap_other qn)).
  2:{ apply Forall_forall. intros m _. by apply quantize_other_snap. }
  reflexivity.
Qed.

Lemma fmap_idem {A} (f : A → A) (l : list A) :
  (∀ x, f (f x) = f x) → f <$> (f <$> l) = f <$> l.
Proof.
  intros H. rewrite <- list_fmap_compose. apply list_fmap_ext. intros _ x _. apply H.
Qed.

Lemma snap_song_twice qn qd s :
  0 < qn → 0 < qd →
  snap_song qn qd (snap_song qn qd s)
  = set_stats (stats (snap_song qn qd (snap_song qn qd s))) (snap_song qn qd s).
Proof.
  intros Hn Hd. unfold snap_song at 1 3. unfold set_stats.
  cbn [metadata qticks_notes qticks_durations tracks other time_signature_changes
       key_signature_changes tempo_changes stats].
  f_equal.
  - unfold snap_song; cbn [tracks]. apply fmap_idem. intros t. by apply snap_track_idem.
  - unfold snap_song; cbn [other]. apply fmap_idem. intros m. by apply snap_other_idem.
  - unfold snap_song; cbn [time_signature_changes]. apply fmap_idem.
    intros m. unfold snap_time_signature. simpl. by rewrite snap_idem.
  - unfold snap_song; cbn [key_signature_changes]. apply fmap_idem.
    intros m. unfold snap_key_signature. simpl. by rewrite snap_idem.
  - unfold snap_song; cbn [tempo_changes]. apply fmap_idem.
    intros m. unfold snap_tempo. simpl. by rewrite snap_idem.
Qed.

(** The changes counted by a second call are all zero. *)
Lemma note_changes_snapped qn qd n :
  0 < qn → 0 < qd → note_changes qn qd (snap_note qn qd n) = (0, 0).
Proof.
  intros Hn Hd. unfold note_changes, snap_note. simpl.
  rewrite snap_idem, snap_duration_idem by done. f_equal; lia.
Qed.

Lemma track_changes_snapped qn qd t :
  0 < qn → 0 < qd →
  track_changes qn qd (snap_track qn qd t)
  = (replicate (length (notes t)) 0, replicate (length (notes t)) 0).
Proof.
  intros Hn Hd. unfold track_changes, unzip_changes, snap_track.
  cbn [notes]. rewrite <- list_fmap_compose.
  rewrite <- !list_fmap_compose.
  induction (notes t) as [|n ns IH]; [done|].
  rewrite !fmap_cons. cbn [compose length replicate].
  rewrite note_changes_snapped by done. cbn [fst snd].
  injection IH as -> ->. done.
Qed.

Lemma song_changes_snapped qn qd s :
  0 < qn → 0 < qd →
  concat ((song_changes qn qd (snap_song qn qd s)).*1)
    = replicate (length (all_notes s)) 0
  ∧ concat ((song_changes qn qd (snap_song qn qd s)).*2)
    = replicate (length (all_notes s)) 0.
Proof.
  intros Hn Hd. unfold song_changes, snap_song, all_notes. cbn [tracks].
  rewrite <- !list_fmap_compose.
  induction (tracks s) as [|t ts [IH1 IH2]]; [done|].
  rewrite !fmap_cons. cbn [compose concat].
  rewrite track_changes_snapped by done. cbn [fst snd].
  rewrite bind_cons.
  rewrite IH1, IH2, length_app, replicate_add. done.
Qed.

(** ** Quantizing twice *)

(** C3 as stated fails on the statistics: the first call counts the
    change it made to the late note (-240), the second call counts no
    change, so the song's [stats] differ after the two calls. *)
Lemma quantize_twice_stats_differ :
  let s1 := (ChirpSong_quantize (Some 960) (Some 960) late_note_song).2 in
  let s2 := (ChirpSong_quantize (Some 960) (Some 960) s1).2 in
  stats s1 !! "Note Start Deltas" = Some (StatCounter [-240])
  ∧ stats s2 !! "Note Start Deltas" = Some (StatCounter [0])
  ∧ s2 ≠ s1.
Proof.
  split; [by vm_compute|]. split; [by vm_compute|].
  intros H. apply (f_equal (λ s, stats s !! "Note Start Deltas")) in H.
  vm_compute in H. discriminate.
Qed.

(** C3 (amended): for positive grids [qn] and [qd], both calls of
    [quantize(song, qn, qd)] return; the state after the second call is
    the state after the first in every field but [stats], where the two
    delta counters now count a zero change for every note; and
    [is_quantized] is true after the first call and after the second. *)
Theorem quantize_twice_same_but_stats (s : ChirpSong) (qn qd : Z) :
  0 < qn → 0 < qd →
  ∃ s1 s2,
    ChirpSong_quantize (Some qn) (Some qd) s = (Ok (), s1)
    ∧ ChirpSong_quantize (Some qn) (Some qd) s1 = (Ok (), s2)
    ∧ s2 = set_stats (stats s2) s1
    ∧ stats s2 = delta_stats (replicate (length (all_notes s)) 0)
                   (replicate (length (all_notes s)) 0) (stats s1)
    ∧ ChirpSong_is_quantized s1 = Ok true
    ∧ ChirpSong_is_quantized s2 = Ok true.
Proof.
  intros Hn Hd.
  exists (snap_song qn qd s), (snap_song qn qd (snap_song qn qd s)).
  split; [by apply ChirpSong_quantize_snap|].
  split; [by apply ChirpSong_quantize_snap|].
  split; [by apply snap_song_twice|].
  split.
  - destruct (song_changes_snapped qn qd s Hn Hd) as [H1 H2].
    unfold snap_song at 1. cbn [stats]. by rewrite H1, H2.
  - split; unfold ChirpSong_is_quantized, snap_song; cbn [tracks];
      by apply is_quantized_tracks_snap.
Qed.

Lemma quantize_twice_same_but_stats_witness :
  ∃ s1 s2,
    ChirpSong_quantize (Some 960) (Some 480) late_note_song = (Ok (), s1)
    ∧ ChirpSong_quantize (Some 960) (Some 480) s1 = (Ok (), s2)
    ∧ s2 = set_stats (stats s2) s1
    ∧ stats s2 = delta_stats (replicate (length (all_notes late_note_song)) 0)
                   (replicate (length (all_notes late_note_song)) 0) (stats s1)
    ∧ ChirpSong_is_quantized s1 = Ok true
    ∧ ChirpSong_is_quantized s2 = Ok true.
Proof. apply (quantize_twice_same_but_stats late_note_song 960 480); lia. Defined.

(** ** Quantizing with the grids omitted *)

(** C2 as stated fails: for four sixteenth notes the search finds the
    sixteenth grid (240), on which the notes already lie, yet [quantize]
    with both grids omitted snaps them to the quarter-note grid the song
    holds and moves three of them. *)
Lemma quantize_omitted_grids_no_discovery :
  discovered_grids sixteenths_song = Ok (240, 240)
  ∧ start_time <$> all_notes (quantize_after_discovery sixteenths_song).2
    = [0; 240; 480; 720]
  ∧ start_time <$> all_notes (ChirpSong_quantize None None sixteenths_song).2
    = [0; 0; 0; 960]
  ∧ ChirpSong_quantize None None sixteenths_song
    ≠ quantize_after_discovery sixteenths_song.
Proof.
  split; [by vm_compute|]. split; [by vm_compute|]. split; [by vm_compute|].
  intros H. apply (f_equal (λ r, start_time <$> all_notes r.2)) in H.
  vm_compute in H. discriminate.
Qed.

(** The grid fields are written by the first statements of [quantize]
    only. *)
Lemma for_field_frame {S A B C} (get : S → list A) (set : list A → S → S)
    (f : M A B) (p : S → C) s :
  (∀ l s, p (set l s) = p s) → p (for_field get set f s).2 = p s.
Proof.
  intros H. unfold for_field. destruct (for_each f (get s)) as [[bs r] l'].
  simpl. apply H.
Qed.

Lemma st_bind_frame {S A B C} (m : M S A) (k : A → M S B) (p : S → C) s :
  p (m s).2 = p s → (∀ a s', p (k a s').2 = p s') → p (st_bind m k s).2 = p s.
Proof.
  intros Hm Hk. unfold st_bind. destruct (m s) as [[a|e|] s']; simpl in *;
    [by rewrite Hk | done | done].
Qed.

Lemma ChirpSong_quantize_unfold arg_notes arg_durations s :
  ChirpSong_quantize arg_notes arg_durations s
  = quantize_tail
      (set_qticks_durations (given arg_durations (qticks_durations s))
         (set_qticks_notes (given arg_notes (qticks_notes s))
            (set_stats
               (<["Duration Deltas" := StatCounter []]>
                  (<["Note Start Deltas" := StatCounter []]> (stats s))) s))).
Proof. reflexivity. Qed.

Lemma quantize_tail_frame {C} (p : ChirpSong → C) s :
  (∀ l s, p (set_tracks l s) = p s) →
  (∀ l s, p (set_stats l s) = p s) →
  (∀ l s, p (set_tempo_changes l s) = p s) →
  (∀ l s, p (set_time_signature_changes l s) = p s) →
  (∀ l s, p (set_key_signature_changes l s) = p s) →
  (∀ l s, p (set_other l s) = p s) →
  p (quantize_tail s).2 = p s.
Proof.
  intros H1 H2 H3 H4 H5 H6.
  apply st_bind_frame.
  { unfold quantize_tracks. destruct (for_each _ _) as [[? ?] ?]. simpl.
    by rewrite H2, H1. }
  intros _ s1. apply st_bind_frame; [done|]. intros qn s2.
  apply st_bind_frame; [by apply for_field_frame|]. intros _ s3.
  apply st_bind_frame; [by apply for_field_frame|]. intros _ s4.
  apply st_bind_frame; [by apply for_field_frame|]. intros _ s5.
  apply st_bind_frame; [by apply for_field_frame|]. intros _ s6.
  done.
Qed.

(** C2 (amended): [quantize] with both grid arguments omitted runs no
    grid discovery; it does what [quantize] does when it is given the
    grid values the Song already holds, and leaves these two values as
    they are. *)
Theorem quantize_omitted_uses_stored_grids (s : ChirpSong) :
  ChirpSong_quantize None None s
  = ChirpSong_quantize (Some (qticks_notes s)) (Some (qticks_durations s)) s
  ∧ qticks_notes (ChirpSong_quantize None None s).2 = qticks_notes s
  ∧ qticks_durations (ChirpSong_quantize None None s).2 = qticks_durations s.
Proof.
  rewrite !ChirpSong_quantize_unfold. rewrite !given_current.
  split; [done|].
  split.
  - by rewrite (quantize_tail_frame qticks_notes).
  - by rewrite (quantize_tail_frame qticks_durations).
Qed.

(** ** Estimating the grids *)


(** Whatever the two searches do, the method touches no field of the
    song but the two grids. *)
Lemma estimate_quantization_frame fq fdq (s : ChirpSong) :
  let s' := (estimate_quantization_body fq fdq s).2 in
  s' = set_qticks_durations (qticks_durations s')
         (set_qticks_notes (qticks_notes s') s).
Proof.
  unfold estimate_quantization_body, st_bind, st_gets, st_lift, st_modify.
  destruct s as [md qn qd ts ot tsc ksc tc st].
  cbn [metadata qticks_notes qticks_durations fst snd set_qticks_notes
       set_qticks_durations tracks other time_signature_changes
       key_signature_changes tempo_changes stats].
  destruct (fq _) as [q1| |]; [|done|done].
  cbn [metadata qticks_notes qticks_durations fst snd set_qticks_notes
       set_qticks_durations tracks other time_signature_changes
       key_signature_changes tempo_changes stats].
  destruct (fdq _) as [q2| |]; [|done|done].
  cbn [metadata qticks_notes qticks_durations fst snd set_qticks_notes
       set_qticks_durations tracks other time_signature_changes
       key_signature_changes tempo_changes stats].
  by destruct (decide (q2 < q1)).
Qed.



(** ** Metric modulation *)

Lemma floordiv_ok a b : b ≠ 0 → floordiv a b = Ok (a `div` b).
Proof. intros H. unfold floordiv. by destruct (decide (b = 0)). Qed.

Lemma ChirpTrack_modulate_closed num denom t :
  denom ≠ 0 →
  ChirpTrack_modulate num denom t = (Ok (), modulated_track num denom t).
Proof.
  intros Hd. unfold ChirpTrack_modulate, st_bind, st_ret.
  rewrite (for_field_total _ _ _ (λ _, ()) (modulated_other num denom)).
  2:{ apply Forall_forall. intros m _. unfold modulate_other.
      by rewrite floordiv_ok. }
  rewrite (for_field_total _ _ _ (λ _, ()) (modulated_note num denom)).
  2:{ apply Forall_forall. intros n _. unfold modulate_note.
      rewrite floordiv_ok by done. cbn [duration set_start_time].
      by rewrite floordiv_ok. }
  reflexivity.
Qed.

Lemma ChirpSong_modulate_closed num denom s last_ts :
  denom ≠ 0 →
  last (time_signature_changes s) = Some last_ts →
  ts_denom last_ts ≠ 0 →
  ChirpSong_modulate num denom s
  = (Ok (), modulated_song num denom (ts_num last_ts) (ts_denom last_ts) s).
Proof.
  intros Hd Hlast Hld.
  unfold ChirpSong_modulate, st_bind, st_gets, st_lift, st_modify.
  rewrite Hlast. cbn [fmap option_fmap option_map].
  rewrite (for_field_total _ _ _ (λ _, ()) (modulated_time_signature num denom)).
  2:{ apply Forall_forall. by intros ts _. }
  rewrite (for_field_total _ _ _ (λ _, ()) (modulated_tempo num denom)).
  2:{ apply Forall_forall. intros tm _. unfold modulate_tempo.
      by rewrite !floordiv_ok. }
  rewrite (for_field_total _ _ _ (λ _, ()) (modulated_other num denom)).
  2:{ apply Forall_forall. intros m _. unfold modulate_other.
      by rewrite floordiv_ok. }
  rewrite (for_field_total _ _ _ (λ _, ()) (modulated_track num denom)).
  2:{ apply Forall_forall. intros t _. by apply ChirpTrack_modulate_closed. }
  cbn [qticks_notes qticks_durations set_tracks set_other set_tempo_changes
       set_time_signature_changes].
  rewrite !floordiv_ok by done.
  reflexivity.
Qed.

(** With no time signature in the song the locals [n] and [d] are read
    without having been assigned. *)
Lemma modulate_without_time_signature :
  (ChirpSong_modulate 3 2 (sample_song sixteenths [])).1 = Raise UnboundLocalError.
Proof. reflexivity. Qed.

(** C1, what the code does: for a non-zero [denom] and a song whose last
    time signature has the non-zero denominator [d] and the numerator
    [n], [modulate(song, num, denom)] returns and leaves
    [modulated_song num denom n d song].  Note starts and durations,
    other events and tempo events are multiplied by [num] and
    floor-divided by [denom]; the ticks of the time-signature events are
    left as they were, and the two grids of the song are multiplied by
    [n] and floor-divided by [d] instead of [num] and [denom]. *)
Theorem modulate_time_signature_ticks_and_grids (s : ChirpSong)
    (num denom : Z) (last_ts : TimeSignature) :
  0 < num → 0 < denom →
  last (time_signature_changes s) = Some last_ts →
  ts_denom last_ts ≠ 0 →
  ∃ s', ChirpSong_modulate num denom s = (Ok (), s')
    ∧ s' = modulated_song num denom (ts_num last_ts) (ts_denom last_ts) s
    ∧ all_notes s' = modulated_note num denom <$> all_notes s
    ∧ ts_start_time <$> time_signature_changes s'
      = ts_start_time <$> time_signature_changes s
    ∧ qticks_notes s' = (qticks_notes s * ts_num last_ts) `div` ts_denom last_ts
    ∧ qticks_durations s'
      = (qticks_durations s * ts_num last_ts) `div` ts_denom last_ts.
Proof.
  intros Hn Hd Hlast Hld. eexists. split.
  { apply ChirpSong_modulate_closed; [lia|done|done]. }
  split; [done|]. split; [|split; [|done]].
  - unfold all_notes, modulated_song. cbn [tracks].
    induction (tracks s) as [|t ts IH]; [done|].
    rewrite fmap_cons, !bind_cons, fmap_app, IH. done.
  - unfold modulated_song. cbn [time_signature_changes].
    rewrite <- list_fmap_compose. by apply list_fmap_ext.
Qed.

(** The failing input: a time signature at tick 3840 and the grids 960,
    modulated by 3/2.  The note at tick 480 goes to 720, the time
    signature stays at tick 3840 (5760 is three halves of it), and the
    grids become 960 * 3 // 4 = 720 (1440 is three halves of 960). *)
Lemma modulate_time_signature_ticks_and_grids_witness :
  ∃ s', ChirpSong_modulate 3 2 two_signature_song = (Ok (), s')
    ∧ s' = modulated_song 3 2 3 4 two_signature_song
    ∧ all_notes s' = modulated_note 3 2 <$> all_notes two_signature_song
    ∧ ts_start_time <$> time_signature_changes s' = [0; 3840]
    ∧ qticks_notes s' = 720
    ∧ qticks_durations s' = 720.
Proof.
  apply (modulate_time_signature_ticks_and_grids two_signature_song 3 2
           (mkTimeSignature 3840 3 4)); [lia | lia | reflexivity | done].
Defined.

(** ** The stable sort *)

Section py_sorted.
Context {A : Type} (le : A → A → bool).

Lemma stable_insert_perm x l : stable_insert le x l ≡ₚ x :: l.
Proof.
  induction l as [|y l IH]; simpl; [done|].
  destruct (le x y); [done|]. rewrite IH. apply Permutation_swap.
Qed.

Lemma py_sorted_perm l : py_sorted le l ≡ₚ l.
Proof.
  induction l as [|x l IH]; simpl; [done|].
  by rewrite stable_insert_perm, IH.
Qed.

(** A list that is in order is left as it is. *)
Lemma py_sorted_id l : Sorted le l → py_sorted le l = l.
Proof.
  induction 1 as [|x l Hl IH Hhd]; simpl; [done|].
  rewrite IH. destruct Hhd as [|y l Hxy]; simpl; [done|].
  by destruct (le x y).
Qed.

(** An element that is first and not above any other stays first. *)
Lemma py_sorted_head_least x l :
  (∀ y, y ∈ l → le x y) → py_sorted le (x :: l) = x :: py_sorted le l.
Proof.
  intros Hx. simpl.
  destruct (py_sorted le l) as [|y l'] eqn:E; simpl; [done|].
  assert (Hy : y ∈ l).
  { rewrite <- (py_sorted_perm l), E. by left. }
  apply Hx in Hy. by destruct (le x y).
Qed.

Hypothesis le_total : ∀ x y, le x y ∨ le y x.
Hypothesis le_trans : ∀ x y z, le x y → le y z → le x z.

Lemma stable_insert_sorted x l :
  Sorted le l → Sorted le (stable_insert le x l).
Proof.
  induction 1 as [|y l Hl IH Hhd]; simpl.
  { by repeat constructor. }
  destruct (le x y) eqn:Exy.
  - constructor; [by constructor|]. constructor. by rewrite Exy.
  - constructor; [done|].
    assert (Hyx : le y x).
    { destruct (le_total x y) as [H|H]; [by rewrite Exy in H|done]. }
    destruct Hhd as [|z l Hyz]; simpl.
    + by constructor.
    + destruct (le x z); by constructor.
Qed.

Lemma py_sorted_sorted l : Sorted le (py_sorted le l).
Proof.
  induction l as [|x l IH]; simpl; [constructor|].
  by apply stable_insert_sorted.
Qed.

(** The first element of the result is an element of the list that is
    not above any other. *)
Lemma py_sorted_first x r l :
  py_sorted le l = x :: r → x ∈ l ∧ ∀ y, y ∈ l → le x y.
Proof.
  intros E. pose proof (py_sorted_sorted l) as Hs.
  pose proof (py_sorted_perm l) as Hp. rewrite E in Hs, Hp.
  split.
  { rewrite <- Hp. by left. }
  intros y Hy. rewrite <- Hp in Hy.
  assert (Htr : Transitive (λ a b : A, Is_true (le a b))).
  { intros a b c. apply le_trans. }
  apply (Sorted_StronglySorted _) in Hs.
  apply StronglySorted_inv in Hs as [_ Hall].
  apply elem_of_cons in Hy as [->|Hy].
  - destruct (le_total x x); done.
  - by apply (proj1 (Forall_forall _ _) Hall).
Qed.

(** Stability: the elements with the same key as [z] stand in the
    order they had. *)
Lemma stable_insert_same_key z x l :
  filter (λ y, same_key le z y) (stable_insert le x l)
  = filter (λ y, same_key le z y) (x :: l).
Proof.
  induction l as [|y l IH]; simpl; [done|].
  destruct (le x y) eqn:Exy; [done|].
  rewrite !filter_cons in *.
  destruct (decide (same_key le z y)) as [Hy|Hy];
    destruct (decide (same_key le z x)) as [Hx|Hx]; rewrite IH; try done.
  exfalso. unfold same_key in *.
  apply andb_True in Hx as [Hzx Hxz]. apply andb_True in Hy as [Hzy Hyz].
  pose proof (le_trans _ _ _ Hxz Hzy) as H. by rewrite Exy in H.
Qed.

Lemma py_sorted_stable z l :
  filter (λ y, same_key le z y) (py_sorted le l) = filter (λ y, same_key le z y) l.
Proof.
  induction l as [|x l IH]; simpl; [done|].
  rewrite stable_insert_same_key, !filter_cons, IH. done.
Qed.
End py_sorted.

Lemma pair_le_total a b : pair_le a b ∨ pair_le b a.
Proof.
  unfold pair_le. destruct a as [a1 a2], b as [b1 b2]; simpl.
  repeat case_bool_decide; simpl; try tauto; lia.
Qed.

Lemma pair_le_trans a b c : pair_le a b → pair_le b c → pair_le a c.
Proof.
  unfold pair_le. destruct a as [a1 a2], b as [b1 b2], c as [c1 c2]; simpl.
  repeat case_bool_decide; simpl; try tauto; lia.
Qed.

Lemma pair_le_fst a b : pair_le a b → a.1 ≤ b.1.
Proof.
  unfold pair_le. repeat case_bool_decide; simpl; try tauto; lia.
Qed.

Lemma triple_le_total a b : triple_le a b ∨ triple_le b a.
Proof.
  unfold triple_le, pair_le. destruct a as [[a1 a2] a3], b as [[b1 b2] b3]; simpl.
  repeat case_bool_decide; simpl; try tauto; lia.
Qed.

Lemma triple_le_trans a b c : triple_le a b → triple_le b c → triple_le a c.
Proof.
  unfold triple_le, pair_le.
  destruct a as [[a1 a2] a3], b as [[b1 b2] b3], c as [[c1 c2] c3]; simpl.
  repeat case_bool_decide; simpl; try tauto; lia.
Qed.

Lemma triple_le_fst a b : triple_le a b → a.1.1 ≤ b.1.1.
Proof.
  unfold triple_le. repeat case_bool_decide; simpl; try tauto; lia.
Qed.

(** ** The beat timeline without a starting time signature *)

Lemma foldl_min_spec (l : list Z) (x : Z) :
  foldl Z.min x l ∈ x :: l ∧ ∀ y, y ∈ x :: l → foldl Z.min x l ≤ y.
Proof.
  revert x. induction l as [|z l IH]; intros x; simpl.
  { split; [by left|]. intros y Hy. apply list_elem_of_singleton in Hy. lia. }
  destruct (IH (x `min` z)) as [Hin Hle]. split.
  - apply elem_of_cons in Hin as [Hin|Hin].
    + rewrite Hin. destruct (Z.min_spec x z) as [[_ ->]|[_ ->]].
      * by left.
      * right. by left.
    + do 2 right. done.
  - intros y Hy. apply elem_of_cons in Hy as [->|Hy].
    + etrans; [apply Hle; by left|]. lia.
    + apply elem_of_cons in Hy as [->|Hy].
      * etrans; [apply Hle; by left|]. lia.
      * apply Hle. by right.
Qed.

Lemma end_time_notes s : all_notes s ≠ [] → ∃ t, end_time s = Ok t.
Proof.
  intros H. unfold end_time. destruct (all_notes s) as [|n ns]; [done|].
  simpl. eauto.
Qed.

Lemma end_time_no_notes s : all_notes s = [] → end_time s = Raise ValueError.
Proof. intros H. unfold end_time. by rewrite H. Qed.

(** The first of the sorted time signatures starts at the earliest
    tick. *)
Lemma sorted_first_earliest tsc first r :
  py_sorted ts_le tsc = first :: r →
  earliest_start tsc = Some (ts_start_time first).
Proof.
  intros E.
  destruct (py_sorted_first ts_le
              (λ x y, triple_le_total _ _) (λ x y z, triple_le_trans _ _ _)
              _ _ _ E) as [Hin Hle].
  unfold earliest_start.
  destruct (ts_start_time <$> tsc) as [|x l] eqn:El.
  { apply fmap_nil_inv in El. subst. by apply elem_of_nil in Hin. }
  f_equal. destruct (foldl_min_spec l x) as [Hm Hmin].
  rewrite <- El in Hm, Hmin.
  apply list_elem_of_fmap in Hm as [ts [Hts Hts_in]].
  apply Hle in Hts_in. apply triple_le_fst in Hts_in. simpl in Hts_in.
  assert (foldl Z.min x l ≤ ts_start_time first).
  { apply Hmin. apply list_elem_of_fmap. eauto. }
  lia.
Qed.

(** C7 as stated fails on the kind of the error: with no time signature,
    and with a single one at tick 960, [measures_and_beats] raises
    [ChiptuneSAKValueError], which is not the quantization error. *)
Lemma measures_and_beats_raises_value_error :
  ChirpSong_measures_and_beats (sample_song sixteenths [])
  = (Raise ChiptuneSAKValueError, sample_song sixteenths [])
  ∧ (ChirpSong_measures_and_beats
       (sample_song sixteenths [mkTimeSignature 960 4 4])).1
    = Raise ChiptuneSAKValueError
  ∧ ChiptuneSAKValueError ≠ ChiptuneSAKQuantizationError.
Proof. split; [done|]. split; [done|]. discriminate. Qed.

(** Without any note the call fails before it looks at the time
    signatures, in [end_time]. *)
Lemma measures_and_beats_no_notes (s : ChirpSong) :
  all_notes s = [] → ChirpSong_measures_and_beats s = (Raise ValueError, s).
Proof.
  intros H. unfold ChirpSong_measures_and_beats, st_bind.
  by rewrite (end_time_no_notes s H).
Qed.

(** C7 (amended): for every Song whose time-signature-change list is
    empty or whose earliest time-signature change does not start at tick
    0, [measures_and_beats] fails with a value error and leaves the Song
    as it was: [ChiptuneSAKValueError] when the Song has a note, and the
    [ValueError] of [end_time] when it has none.  It never returns a
    timeline. *)
Theorem measures_and_beats_no_starting_signature (s : ChirpSong) :
  earliest_start (time_signature_changes s) ≠ Some 0 →
  ChirpSong_measures_and_beats s
  = (Raise (if decide (all_notes s = []) then ValueError
            else ChiptuneSAKValueError), s).
Proof.
  intros Hearly.
  destruct (decide (all_notes s = [])) as [Hnone|Hnotes].
  { by apply measures_and_beats_no_notes. }
  destruct (end_time_notes s Hnotes) as [max_time Hend].
  unfold ChirpSong_measures_and_beats, st_bind, st_gets, st_raise.
  rewrite Hend.
  destruct (py_sorted ts_le (time_signature_changes s)) as [|first r] eqn:E;
    [done|].
  apply sorted_first_earliest in E.
  destruct (decide (ts_start_time first ≠ 0)) as [|Hz]; [done|].
  exfalso. apply Hearly. rewrite E. f_equal. lia.
Qed.

Lemma measures_and_beats_no_starting_signature_witness :
  ChirpSong_measures_and_beats
    (sample_song sixteenths [mkTimeSignature 1920 3 4; mkTimeSignature 960 4 4])
  = (Raise ChiptuneSAKValueError,
     sample_song sixteenths [mkTimeSignature 1920 3 4; mkTimeSignature 960 4 4]).
Proof.
  apply (measures_and_beats_no_starting_signature
           (sample_song sixteenths
              [mkTimeSignature 1920 3 4; mkTimeSignature 960 4 4])).
  vm_compute. congruence.
Defined.

(** ** The beat timeline in common time *)

Lemma next_beat_common_time i :
  0 ≤ i →
  next_beat 960 (mkTimeSignature 0 4 4)
    (mkBeatPos (960 * i) (i `div` 4 + 1) (i `mod` 4 + 1))
  = mkBeatPos (960 * (i + 1)) ((i + 1) `div` 4 + 1) ((i + 1) `mod` 4 + 1).
Proof.
  intros Hi. unfold next_beat. cbn [bp_t bp_m bp_b ts_num].
  destruct (decide (i `mod` 4 + 1 + 1 > 4)); f_equal;
    try (Z.div_mod_to_equations; lia).
Qed.

(** The rounds of the walk from beat [i] on: with enough fuel they
    append the [n] beats that start before the limit. *)
Lemma beat_rounds_common_time (n : nat) :
  ∀ (fuel : nat) (i limit : Z),
    0 ≤ i → (n ≤ fuel)%nat →
    960 * (i + Z.of_nat n - 1) < limit ≤ 960 * (i + Z.of_nat n) →
    beat_rounds fuel 960 (mkTimeSignature 0 4 4) limit
      (mkBeatPos (960 * i) (i `div` 4 + 1) (i `mod` 4 + 1))
    = (common_time_beat <$> seqZ i (Z.of_nat n),
       mkBeatPos (960 * (i + Z.of_nat n)) ((i + Z.of_nat n) `div` 4 + 1)
         ((i + Z.of_nat n) `mod` 4 + 1)).
Proof.
  induction n as [|n IH]; intros fuel i limit Hi Hfuel Hlim.
  - replace (i + Z.of_nat 0) with i by lia.
    destruct fuel as [|fuel]; simpl; [done|].
    destruct (decide (960 * i < limit)); [lia|done].
  - destruct fuel as [|fuel]; [lia|]. cbn [beat_rounds bp_t bp_m bp_b].
    destruct (decide (960 * i < limit)); [|lia].
    rewrite next_beat_common_time by done.
    rewrite (IH fuel (i + 1) limit) by lia.
    replace (i + 1 + Z.of_nat n) with (i + Z.of_nat (S n)) by lia.
    f_equal. replace (Z.of_nat (S n)) with (Z.succ (Z.of_nat n)) by lia.
    rewrite (seqZ_cons i) by lia. rewrite fmap_cons.
    replace (Z.succ i) with (i + 1) by lia.
    replace (Z.pred (Z.succ (Z.of_nat n))) with (Z.of_nat n) by lia. done.
Qed.

(** In common time with 960 ticks to the quarter note, a song whose last
    note ends at tick [E] has [E // 960 + 1] beats, and beat [i] is at
    tick [960 * i], in measure [i // 4 + 1], with the number
    [i % 4 + 1]. *)
Lemma measures_and_beats_common_time (s : ChirpSong) (E : Z) :
  ppq (metadata s) = 960 →
  time_signature_changes s = [mkTimeSignature 0 4 4] →
  end_time s = Ok E →
  0 ≤ E →
  (ChirpSong_measures_and_beats s).1
  = Ok (common_time_beat <$> seqZ 0 (E `div` 960 + 1)).
Proof.
  intros Hppq Htsc Hend HE.
  unfold ChirpSong_measures_and_beats, st_bind, st_gets, st_lift, st_modify,
    st_ret, st_raise.
  rewrite Hend, Htsc. cbn [py_sorted stable_insert].
  destruct (decide (ts_start_time (mkTimeSignature 0 4 4) ≠ 0)) as [H|_];
    [done|].
  rewrite Hppq. cbn [beats_for ts_start_time].
  change (beat_while 960 (mkTimeSignature 0 4 4) 0 (mkBeatPos 0 1 1))
    with (Ok (A:=list Beat * beat_pos) ([], mkBeatPos 0 1 1)).
  cbn [mbind result_bind fst snd app].
  unfold beat_while. cbn [bp_t ts_denom].
  destruct (decide (0 < E + 1)) as [_|H]; [|lia].
  change (floordiv (960 * 4) 4) with (Ok (A:=Z) 960).
  cbn [mbind result_bind].
  destruct (decide (960 ≤ 0)) as [H|_]; [lia|].
  pose proof (beat_rounds_common_time (Z.to_nat (E `div` 960 + 1))
                (Z.to_nat (E + 1 - 0)) 0 (E + 1)) as Hr.
  change (960 * 0) with 0 in Hr. change (0 `div` 4 + 1) with 1 in Hr.
  change (0 `mod` 4 + 1) with 1 in Hr.
  assert (Hq : 0 ≤ E `div` 960) by (Z.div_mod_to_equations; lia).
  rewrite Hr.
  - cbn [fst snd app]. rewrite Z2Nat.id by lia. done.
  - done.
  - apply Z2Nat.inj_le; [lia|lia|]. Z.div_mod_to_equations; lia.
  - rewrite Z2Nat.id by lia. Z.div_mod_to_equations; lia.
Qed.

(** C8 as stated fails on the count: the song whose only note ends at
    tick 3840 has five beats, not sixteen. *)
Lemma measures_and_beats_whole_note_five_beats :
  end_time whole_note_song = Ok 3840
  ∧ length <$> (ChirpSong_measures_and_beats whole_note_song).1 = Ok 5%nat
  ∧ length <$> (ChirpSong_measures_and_beats whole_note_song).1 ≠ Ok 16%nat.
Proof. split; [done|]. split; [done|]. by vm_compute. Qed.

(** C8 (amended): for a Song with ppq = 960, the single time signature
    (0, 4, 4) and last note end tick 3840, [measures_and_beats] yields
    exactly 5 Beat entries, at the ticks 0, 960, 1920, 2880 and 3840;
    their beat numbers cycle 1, 2, 3, 4, 1 and the measure number goes
    from 1 to 2 after the 4th beat. *)
Theorem measures_and_beats_end_3840 (s : ChirpSong) :
  ppq (metadata s) = 960 →
  time_signature_changes s = [mkTimeSignature 0 4 4] →
  end_time s = Ok 3840 →
  (ChirpSong_measures_and_beats s).1
  = Ok [mkBeat 0 1 1; mkBeat 960 1 2; mkBeat 1920 1 3; mkBeat 2880 1 4;
        mkBeat 3840 2 1].
Proof.
  intros Hppq Htsc Hend.
  by rewrite (measures_and_beats_common_time s 3840).
Qed.

Lemma measures_and_beats_end_3840_witness :
  (ChirpSong_measures_and_beats whole_note_song).1
  = Ok [mkBeat 0 1 1; mkBeat 960 1 2; mkBeat 1920 1 3; mkBeat 2880 1 4;
        mkBeat 3840 2 1].
Proof.
  apply (measures_and_beats_end_3840 whole_note_song); reflexivity.
Defined.

(** Sixteen beats, four measures of four, take an end tick from 14400 up
    to 15359. *)
Lemma measures_and_beats_sixteen_beats (s : ChirpSong) (E : Z) :
  ppq (metadata s) = 960 →
  time_signature_changes s = [mkTimeSignature 0 4 4] →
  end_time s = Ok E →
  14400 ≤ E < 15360 →
  fmap (M:=list) b_beat <$> (ChirpSong_measures_and_beats s).1
  = Ok [1; 2; 3; 4; 1; 2; 3; 4; 1; 2; 3; 4; 1; 2; 3; 4]
  ∧ fmap (M:=list) b_measure <$> (ChirpSong_measures_and_beats s).1
    = Ok [1; 1; 1; 1; 2; 2; 2; 2; 3; 3; 3; 3; 4; 4; 4; 4].
Proof.
  intros Hppq Htsc Hend HE.
  rewrite (measures_and_beats_common_time s E) by (done || lia).
  replace (E `div` 960 + 1) with 16 by (Z.div_mod_to_equations; lia).
  done.
Qed.

(** ** Measures of a song that ends in its first measure *)

Lemma st_bind_ret_fst {S A B} (m : M S A) (f : A → B) (s : S) :
  (st_bind m (λ x, st_ret (f x)) s).1 = f <$> (m s).1.
Proof. unfold st_bind, st_ret. by destruct (m s) as [[a|e|] s']. Qed.

Lemma measure_starts_fst s :
  (ChirpSong_measure_starts s).1
  = (λ beats : list Beat, b_start_time <$> filter (λ m, b_beat m = 1) beats)
      <$> (ChirpSong_measures_and_beats s).1.
Proof. apply st_bind_ret_fst. Qed.

(** The beat walk returns only for a song that has a note, and so a
    track. *)
Lemma measures_and_beats_ok_tracks s beats :
  (ChirpSong_measures_and_beats s).1 = Ok beats → tracks s ≠ [].
Proof.
  intros H Hts.
  rewrite measures_and_beats_no_notes in H; [done|].
  unfold all_notes. by rewrite Hts.
Qed.



(** In common time with 960 ticks to the quarter note, a song whose last
    note ends before tick 3840, where the second measure begins, has the
    single measure start 0. *)
Lemma measure_starts_first_measure_only (s : ChirpSong) (E : Z) :
  ppq (metadata s) = 960 →
  time_signature_changes s = [mkTimeSignature 0 4 4] →
  end_time s = Ok E →
  0 ≤ E < 3840 →
  (ChirpSong_measure_starts s).1 = Ok [0].
Proof.
  intros Hppq Htsc Hend HE.
  rewrite measure_starts_fst, (measures_and_beats_common_time s E) by (done || lia).
  assert (Hq : E `div` 960 = 0 ∨ E `div` 960 = 1 ∨ E `div` 960 = 2
               ∨ E `div` 960 = 3) by (Z.div_mod_to_equations; lia).
  destruct Hq as [->|[->|[->| ->]]]; reflexivity.
Qed.

(** ** Removing polyphony *)

Lemma Sorted_lookup_adjacent {A} (R : relation A) (l : list A) (i : nat) a b :
  Sorted R l → l !! i = Some a → l !! S i = Some b → R a b.
Proof.
  intros Hs. revert i. induction Hs as [|x l Hl IH Hhd]; intros i Ha Hb; [done|].
  destruct i as [|i].
  - simpl in Ha, Hb. injection Ha as ->.
    destruct Hhd as [|y l Hxy]; [done|]. simpl in Hb. by injection Hb as ->.
  - simpl in Ha, Hb. by apply (IH i).
Qed.

(** The loop of [remove_polyphony], from a note in hand that starts no
    later than the notes to come, themselves in time order: the notes it
    gives follow one another, the first of them starts where the note in
    hand starts, and no note gets a non-positive duration that did not
    have one. *)
Lemma remove_polyphony_loop_follows ns :
  ∀ last deleted truncated,
    Forall (λ n, start_time last ≤ start_time n) ns →
    StronglySorted (λ a b, start_time a ≤ start_time b) ns →
    Sorted follows (remove_polyphony_loop last ns deleted truncated).1.1
    ∧ (∃ first rest,
         (remove_polyphony_loop last ns deleted truncated).1.1 = first :: rest
         ∧ start_time first = start_time last)
    ∧ (Forall (λ n, 0 < duration n) (last :: ns) →
       Forall (λ n, 0 < duration n)
         (remove_polyphony_loop last ns deleted truncated).1.1).
Proof.
  induction ns as [|n ns IH]; intros last deleted truncated Hlast Hs.
  { simpl. split; [by repeat constructor|]. split; [by exists last, []|done]. }
  apply Forall_cons in Hlast as [Hn Hlast].
  apply StronglySorted_inv in Hs as [Hs Hnall].
  cbn [remove_polyphony_loop].
  destruct (decide (start_time n = start_time last)) as [Heq|Hne].
  { destruct (IH last (deleted + 1) truncated Hlast Hs) as (H1 & H2 & H3).
    split; [done|]. split; [done|]. intros Hpos. apply H3.
    apply Forall_cons in Hpos as [Hpl Hpos].
    apply Forall_cons in Hpos as [_ Hpos]. by constructor. }
  set (last' := if decide (start_time n < start_time last + duration last)
                then (set_duration (start_time n - start_time last) last,
                      truncated + 1)
                else (last, truncated)).
  assert (Hl' : start_time last'.1 = start_time last
                ∧ start_time last'.1 + duration last'.1 ≤ start_time n
                ∧ (0 < duration last → 0 < duration last'.1)).
  { unfold last'. destruct (decide _); simpl; lia. }
  destruct last' as [l' tr'] eqn:El'. cbn [fst] in Hl'.
  set (deleted' := if decide (duration l' ≤ 0) then deleted + 1 else deleted).
  destruct (IH n deleted' tr' Hnall Hs)
    as (Hsorted & (first & rest & Hout & Hfirst) & Hposr).
  destruct (remove_polyphony_loop n ns deleted' tr') as [[out d] t] eqn:Eloop.
  cbn [fst] in *. subst out. split; [|split].
  - constructor; [done|]. constructor. unfold follows. lia.
  - exists l', (first :: rest). split; [done|]. lia.
  - intros Hpos. apply Forall_cons in Hpos as [Hpl Hpos].
    constructor; [lia|]. by apply Hposr.
Qed.

Lemma Sorted_weaken {A} (R R' : relation A) (l : list A) :
  (∀ a b, R a b → R' a b) → Sorted R l → Sorted R' l.
Proof.
  intros HR. induction 1 as [|x l Hl IH Hhd]; constructor; [done|].
  destruct Hhd; constructor. by apply HR.
Qed.

Lemma follows_note_key_le a b : follows a b → note_key_le a b.
Proof.
  intros [H _]. unfold note_key_le, pair_le, note_key. simpl.
  rewrite bool_decide_eq_true_2 by done. done.
Qed.

Lemma follows_not_polyphonic l :
  Sorted follows l →
  existsb (λ '(a, b), bool_decide (start_time b - start_time a < duration a))
    (pairwise l) = false.
Proof.
  induction 1 as [|a l Hl IH Hhd]; [done|].
  destruct Hhd as [|b l [_ Hab]]; [done|].
  cbn [pairwise existsb]. cbn [pairwise] in IH. rewrite IH.
  rewrite bool_decide_eq_false_2 by lia. done.
Qed.

Lemma time_ascending_strongly l :
  time_ascending l → StronglySorted (λ a b, start_time a ≤ start_time b) l.
Proof.
  apply Sorted_StronglySorted. intros a b c. lia.
Qed.



(** A note that comes in with a non-positive duration is counted as
    deleted and kept. *)
Lemma remove_polyphony_keeps_empty_note :
  ChirpTrack_remove_polyphony
    (sample_track [mkNote 60 0 0 100 false; mkNote 62 10 5 100 false])
  = (Ok (1, 0),
     sample_track [mkNote 60 0 0 100 false; mkNote 62 10 5 100 false]).
Proof. reflexivity. Qed.

(** ** The measure populator *)

(** C6 as stated fails on the order: a measure is not in the order of
    the ranks.  In the first measure of this quantized, monophonic
    track the note at tick 0 (rank 10) stands before the tempo change at
    tick 1920 (rank 3). *)
Lemma populate_measures_not_in_priority_order :
  ChirpTrack_is_quantized (sample_track tempo_change_notes) = Ok true
  ∧ ChirpTrack_is_polyphonic (sample_track tempo_change_notes) = false
  ∧ ((λ ms : list (list item), fmap (M:=list) priority <$> ms)
       <$> (populate_measures
              (tempo_change_song, sample_track tempo_change_notes)).1)
    = Ok [[0; 1; 2; 3; 10; 3; 10]; [0; 10; 10; 10; 10]]
  ∧ ¬ Sorted Z.le [0; 1; 2; 3; 10; 3; 10].
Proof.
  split; [done|]. split; [done|]. split; [by vm_compute|].
  intros H. do 4 apply Sorted_inv in H as [H _].
  apply Sorted_inv in H as [_ H]. apply HdRel_inv in H. lia.
Qed.

Lemma place_carry_ok start end_ carry carry_items last_note_end carry' :
  place_carry start end_ carry = Ok (carry_items, last_note_end, carry') →
  Forall (timed_ok start) carry_items ∧ end_ok start end_ last_note_end.
Proof.
  unfold place_carry. destruct carry as [c|].
  - cbn [duration set_start_time note_num].
    destruct (decide (duration c ≤ 0)); [done|].
    destruct (decide (start + duration c > end_)); intros [= <- <- <-].
    + split; [|by right]. constructor; [|done]. split; [|done].
      unfold tick. simpl. lia.
    + split; [|left; lia]. constructor; [|done]. split; [|done].
      unfold tick. simpl. lia.
  - intros [= <- <- <-]. split; [done|]. left. lia.
Qed.

Lemma place_notes_ok start end_ todo :
  ∀ last_note_end carry,
    Forall (note_ok start) todo →
    StronglySorted (λ a b, start_time a ≤ start_time b) todo →
    end_ok start end_ last_note_end →
    let r := place_notes end_ todo last_note_end carry in
    Forall (timed_ok start) (pl_items r)
    ∧ end_ok start end_ (pl_last_note_end r)
    ∧ Forall (note_ok end_) (pl_todo r)
    ∧ StronglySorted (λ a b, start_time a ≤ start_time b) (pl_todo r).
Proof.
  induction todo as [|n todo IH]; intros lne carry Hok Hs Hlne.
  { simpl. done. }
  apply Forall_cons in Hok as [[Hn Hd] Hok].
  pose proof Hs as Hs0.
  apply StronglySorted_inv in Hs as [Hs Hnall].
  cbn [place_notes]. destruct (decide (start_time n < end_)) as [Hin|Hout].
  - assert (Hrest : Forall (timed_ok start)
              (if decide (start_time n - lne > 0)
               then [IRest lne (start_time n - lne)] else [])).
    { destruct (decide _); [|done]. constructor; [|done]. split; [|done].
      unfold tick. simpl. destruct Hlne; lia. }
    destruct (decide (start_time n + duration n ≤ end_)) as [Hfit|Hcross].
    + destruct (IH (start_time n + duration n) carry Hok Hs) as (H1 & H2 & H3 & H4).
      { left. lia. }
      cbn [pl_items pl_done pl_todo pl_last_note_end pl_carry].
      split; [|done]. apply Forall_app. split; [done|].
      constructor; [|done]. split; [|done]. unfold tick. simpl. lia.
    + destruct (IH end_
                  (Some (set_duration (duration n - (end_ - start_time n)) n))
                  Hok Hs) as (H1 & H2 & H3 & H4).
      { by right. }
      cbn [pl_items pl_done pl_todo pl_last_note_end pl_carry].
      split; [|done]. apply Forall_app. split; [done|].
      constructor; [|done]. split; [|done]. unfold tick. simpl. lia.
  - cbn [pl_items pl_done pl_todo pl_last_note_end pl_carry].
    split; [done|]. split; [done|]. split; [|done].
    constructor; [split; lia|].
    apply Forall_forall. intros m Hm.
    pose proof (proj1 (Forall_forall _ _) Hnall m Hm) as Hle.
    pose proof (proj1 (Forall_forall _ _) Hok m Hm) as [_ Hdm].
    cbv beta in Hle. split; [lia|done].
Qed.

Lemma measure_events_ok song track_other start end_ :
  Forall (λ c, key_ok start c ∧ is_timed c = false)
    (measure_events song track_other start end_).
Proof.
  unfold measure_events. rewrite !Forall_app. repeat split.
  - apply Forall_fmap, Forall_forall. intros m Hm.
    apply list_elem_of_filter in Hm as [Hw _].
    unfold in_window in Hw. apply andb_True in Hw as [Hw _].
    apply bool_decide_unpack in Hw.
    unfold compose, track_event, key_ok, tick, priority.
    destruct (decide _); simpl; (split; [lia|done]).
  - apply Forall_fmap, Forall_forall. intros m _.
    unfold compose, key_ok, tick, priority. simpl. split; [lia|done].
  - apply Forall_fmap, Forall_forall. intros m _.
    unfold compose, key_ok, tick, priority. simpl. split; [lia|done].
  - apply Forall_fmap, Forall_forall. intros m Hm.
    apply list_elem_of_filter in Hm as [Hw _].
    unfold in_window in Hw. apply andb_True in Hw as [Hw _].
    apply bool_decide_unpack in Hw.
    unfold compose, key_ok, tick, priority. simpl. split; [lia|done].
  - apply Forall_fmap, Forall_forall. intros m Hm.
    apply list_elem_of_filter in Hm as [Hw _].
    unfold in_window in Hw. apply andb_True in Hw as [Hw _].
    apply bool_decide_unpack in Hw.
    unfold compose, key_ok, tick, priority. simpl. split; [lia|done].
Qed.

(** The measures the loop of the populator gives, from the measure that
    starts at [start] on: measure [k] is the sorted list of its marker,
    the notes and rests placed in it, and the events of its window. *)
Lemma populate_loop_ok song track_other starts :
  ∀ start imeasure todo carry ms notes',
    Forall (note_ok start) todo →
    StronglySorted (λ a b, start_time a ≤ start_time b) todo →
    populate_loop song track_other (pairwise (start :: starts)) imeasure
      todo carry = (Ok ms, notes') →
    length ms = length starts
    ∧ ∀ (k : nat) m, ms !! k = Some m →
        ∃ st end_ timed,
          (start :: starts) !! k = Some st
          ∧ starts !! k = Some end_
          ∧ Forall (timed_ok st) timed
          ∧ m = py_sorted item_le
                  (IMeasureMarker st (imeasure + 1 + Z.of_nat k)
                     :: timed ++ measure_events song track_other st end_).
Proof.
  induction starts as [|e starts IH];
    intros start imeasure todo carry ms notes' Hok Hs Hrun.
  { simpl in Hrun. injection Hrun as <- <-. split; [done|]. intros k m Hk.
    by rewrite lookup_nil in Hk. }
  change (pairwise (start :: e :: starts))
    with ((start, e) :: pairwise (e :: starts)) in Hrun.
  cbn [populate_loop] in Hrun.
  destruct (place_carry start e carry) as [[[ci lne] carry']| |] eqn:Ecarry;
    [|done|done].
  destruct (place_carry_ok _ _ _ _ _ _ Ecarry) as [Hci Hlne].
  destruct (place_notes_ok start e todo lne carry' Hok Hs Hlne)
    as (Hitems & Hlne' & Htodo & Hsorted).
  set (r := place_notes e todo lne carry') in *.
  destruct (populate_loop song track_other (pairwise (e :: starts))
              (imeasure + 1) (pl_todo r) (pl_carry r)) as [msr notes''] eqn:Erec.
  destruct msr as [ms'| |]; [|done|done].
  cbn [fmap result_fmap] in Hrun. injection Hrun as <- <-.
  destruct (IH e (imeasure + 1) (pl_todo r) (pl_carry r) ms' notes''
              Htodo Hsorted Erec) as [Hlen Hms].
  split; [simpl; by rewrite Hlen|].
  intros [|k] m Hk.
  - simpl in Hk. injection Hk as <-.
    exists start, e,
      (ci ++ pl_items r
       ++ (if decide (e - pl_last_note_end r > 0)
           then [IRest (pl_last_note_end r) (e - pl_last_note_end r)] else [])).
    split; [done|]. split; [done|]. split.
    + rewrite !Forall_app. split; [done|]. split; [done|].
      destruct (decide _); [|done]. constructor; [|done]. split; [|done].
      unfold tick. simpl. destruct Hlne'; lia.
    + unfold collect_measure. rewrite Z.add_0_r. by rewrite <- !(assoc_L (++)).
  - simpl in Hk. destruct (Hms k m Hk) as (st & end_ & timed & H1 & H2 & H3 & H4).
    exists st, end_, timed. split; [done|]. split; [done|]. split; [done|].
    rewrite H4. do 3 f_equal. lia.
Qed.

(** The beat walk starts at tick 0 with beat 1 of measure 1: whatever it
    emits begins with that beat. *)
Lemma beat_rounds_head fuel step last limit p :
  let r := beat_rounds fuel step last limit p in
  (r.1 = [] ∧ r.2 = p)
  ∨ ∃ rest, r.1 = mkBeat (bp_t p) (bp_m p) (bp_b p) :: rest.
Proof.
  destruct fuel as [|fuel]; simpl; [by left|].
  destruct (decide (bp_t p < limit)); [|by left].
  destruct (beat_rounds fuel step last limit (next_beat step last p)) as [bs p'].
  right. by exists bs.
Qed.

Lemma beat_while_head the_ppq last limit p r :
  beat_while the_ppq last limit p = Ok r →
  (r.1 = [] ∧ r.2 = p)
  ∨ ∃ rest, r.1 = mkBeat (bp_t p) (bp_m p) (bp_b p) :: rest.
Proof.
  unfold beat_while. destruct (decide (bp_t p < limit)).
  - destruct (floordiv _ _) as [step| |]; [|done|done]. simpl.
    destruct (decide (step ≤ 0)); [done|]. intros [= <-].
    apply beat_rounds_head.
  - intros [= <-]. by left.
Qed.

Lemma beats_for_head the_ppq tsc :
  ∀ last p r,
    beats_for the_ppq tsc last p = Ok r →
    (r.1.1 = [] ∧ r.2 = p)
    ∨ ∃ rest, r.1.1 = mkBeat (bp_t p) (bp_m p) (bp_b p) :: rest.
Proof.
  induction tsc as [|s tsc IH]; intros last p r.
  { simpl. intros [= <-]. by left. }
  cbn [beats_for].
  destruct (beat_while the_ppq last (ts_start_time s) p) as [r1| |] eqn:E1;
    [|done|done].
  cbn [mbind result_bind].
  destruct (beats_for the_ppq tsc s r1.2) as [r2| |] eqn:E2; [|done|done].
  cbn [mbind result_bind]. intros [= <-]. cbn [fst snd].
  destruct (beat_while_head _ _ _ _ _ E1) as [[H1 H1']|[rest H1]].
  - rewrite H1. simpl. rewrite H1' in E2. by apply (IH s p).
  - right. rewrite H1. by eexists.
Qed.

Lemma measures_and_beats_head s beats :
  (ChirpSong_measures_and_beats s).1 = Ok beats →
  beats = [] ∨ ∃ rest, beats = mkBeat 0 1 1 :: rest.
Proof.
  unfold ChirpSong_measures_and_beats, st_bind, st_gets, st_lift, st_modify,
    st_ret, st_raise.
  destruct (end_time s) as [max_time| |]; [|done|done].
  destruct (py_sorted ts_le (time_signature_changes s)) as [|first tsc];
    [done|].
  destruct (decide (ts_start_time first ≠ 0)); [done|].
  destruct (beats_for _ _ _ _) as [r1| |] eqn:E1; [|done|done].
  destruct (beat_while _ _ _ _) as [r2| |] eqn:E2; [|done|done].
  cbn [fst]. intros [= <-].
  destruct (beats_for_head _ _ _ _ _ E1) as [[H1 H1']|[rest H1]].
  - rewrite H1. simpl. rewrite H1' in E2.
    destruct (beat_while_head _ _ _ _ _ E2) as [[H2 _]|[rest H2]].
    + by left.
    + right. by exists rest.
  - right. rewrite H1. by eexists.
Qed.

Lemma measure_starts_head s starts :
  (ChirpSong_measure_starts s).1 = Ok starts →
  starts = [] ∨ ∃ rest, starts = 0 :: rest.
Proof.
  rewrite measure_starts_fst.
  destruct (ChirpSong_measures_and_beats s).1 as [beats| |] eqn:E; [|done|done].
  cbn [fmap result_fmap]. intros [= <-].
  destruct (measures_and_beats_head s beats E) as [->|[rest ->]]; [by left|].
  right. rewrite filter_cons_True by done. by eexists.
Qed.

(** [measures_and_beats] writes to [stats] only. *)
Lemma measures_and_beats_frame s :
  ∃ st, (ChirpSong_measures_and_beats s).2 = set_stats st s.
Proof.
  assert (Hid : s = set_stats (stats s) s) by (by destruct s).
  unfold ChirpSong_measures_and_beats, st_bind, st_gets, st_lift, st_modify,
    st_ret, st_raise.
  destruct (end_time s) as [max_time| |]; [|by eexists|by eexists].
  destruct (py_sorted ts_le (time_signature_changes s)) as [|first tsc];
    [by eexists|].
  destruct (decide (ts_start_time first ≠ 0)); [by eexists|].
  destruct (beats_for _ _ _ _) as [r1| |]; [|by eexists|by eexists].
  destruct (beat_while _ _ _ _) as [r2| |]; [|by eexists|by eexists].
  by eexists.
Qed.

Lemma measure_starts_frame s :
  ∃ st, (ChirpSong_measure_starts s).2 = set_stats st s.
Proof.
  destruct (measures_and_beats_frame s) as [st Hst].
  unfold ChirpSong_measure_starts, st_bind, st_ret.
  destruct (ChirpSong_measures_and_beats s) as [[beats| |] s']; by exists st.
Qed.

Lemma measure_events_stats st song track_other start end_ :
  measure_events (set_stats st song) track_other start end_
  = measure_events song track_other start end_.
Proof. reflexivity. Qed.

Lemma monophonic_tail n l : monophonic (n :: l) → monophonic l.
Proof. intros H i a b Ha Hb. by apply (H (S i)). Qed.

Lemma monophonic_time_ascending l :
  Forall (λ n, 0 < duration n) l → monophonic l → time_ascending l.
Proof.
  unfold time_ascending. induction 1 as [|n l Hn Hl IH]; intros Hm.
  { constructor. }
  constructor; [by apply IH, (monophonic_tail n)|].
  destruct l as [|m l]; constructor.
  pose proof (Hm 0%nat n m eq_refl eq_refl). lia.
Qed.

Lemma not_polyphonic_monophonic l :
  existsb (λ '(a, b), bool_decide (start_time b - start_time a < duration a))
    (pairwise l) = false →
  monophonic l.
Proof.
  induction l as [|a l IH]; intros H i x y Hx Hy; [done|].
  destruct l as [|b l]; [by destruct i|].
  cbn [pairwise existsb] in H. apply orb_false_iff in H as [Hab H].
  apply bool_decide_eq_false in Hab.
  destruct i as [|i].
  - simpl in Hx, Hy. injection Hx as <-. injection Hy as <-. lia.
  - by apply (IH H i).
Qed.

Lemma extend_measure_starts_app starts ext :
  extend_measure_starts starts = Ok ext →
  ∃ x, ext = starts ++ [x] ∧ (2 ≤ length starts)%nat.
Proof.
  unfold extend_measure_starts.
  destruct (reverse starts) as [|l [|b r]] eqn:E; [done|done|].
  intros [= <-]. eexists. split; [done|].
  rewrite <- length_reverse, E. simpl. lia.
Qed.

Lemma marker_least start i c :
  start ≤ tick c → item_le (IMeasureMarker start i) c.
Proof.
  intros H. unfold item_le, pair_le, tick in *.
  assert (0 ≤ (sort_order c).2) by (destruct c; simpl; lia).
  cbn [sort_order fst snd].
  destruct (decide (start < (sort_order c).1)).
  - by rewrite (bool_decide_eq_true_2 (start < _)) by done.
  - rewrite (bool_decide_eq_false_2 (start < _)) by done.
    by rewrite !bool_decide_eq_true_2 by lia.
Qed.

Lemma item_le_total a b : item_le a b ∨ item_le b a.
Proof. apply pair_le_total. Qed.

Lemma item_le_trans a b c : item_le a b → item_le b c → item_le a c.
Proof. apply pair_le_trans. Qed.

(** C6 (amended): for every track whose notes start at tick 0 or later,
    have positive durations and are monophonic, every measure the
    populator returns is the stable sort, by start tick first and by the
    rank MeasureMarker, TimeSignature, KeySignature, Tempo, Program,
    other event, Note or Rest among the items of one tick, of the items
    collected for it: its marker, the notes and rests placed in it, and
    the events of the track and of the song in its window.  Its first
    element is the MeasureMarker with the measure's start tick and its
    index (from 1); the measure is in the order of (tick, rank); and
    items of equal tick and rank stand in the order they were
    collected. *)
Theorem populate_measures_marker_first_tick_order (song : ChirpSong)
    (track : ChirpTrack) (ms : list (list item)) :
  Forall (λ n, 0 ≤ start_time n ∧ 0 < duration n) (notes track) →
  monophonic (notes track) →
  (populate_measures (song, track)).1 = Ok ms →
  ∃ starts ext,
    (ChirpSong_measure_starts song).1 = Ok starts
    ∧ extend_measure_starts starts = Ok ext
    ∧ length ms = length starts
    ∧ ∀ (k : nat) (m : list item), ms !! k = Some m →
        ∃ start end_ timed,
          ext !! k = Some start
          ∧ ext !! S k = Some end_
          ∧ Forall (timed_ok start) timed
          ∧ m = py_sorted item_le
                  (IMeasureMarker start (Z.of_nat k + 1)
                     :: timed ++ measure_events song (tr_other track) start end_)
          ∧ (∃ rest, m = IMeasureMarker start (Z.of_nat k + 1) :: rest)
          ∧ Sorted item_le m
          ∧ ∀ z, filter (λ c, same_key item_le z c) m
                 = filter (λ c, same_key item_le z c)
                     (IMeasureMarker start (Z.of_nat k + 1)
                        :: timed
                        ++ measure_events song (tr_other track) start end_).
Proof.
  intros Hnotes Hmono Hrun. unfold populate_measures in Hrun.
  destruct (measure_starts_frame song) as [st Hframe].
  destruct (ChirpSong_measure_starts song) as [[starts| |] song'] eqn:Estarts;
    [|done|done].
  cbn [snd] in Hframe. subst song'.
  destruct (extend_measure_starts starts) as [ext| |] eqn:Eext; [|done|done].
  destruct (populate_loop _ _ _ _ _ _) as [r notes'] eqn:Eloop.
  cbn [fst] in Hrun. subst r.
  exists starts, ext. split; [done|]. split; [done|].
  destruct (extend_measure_starts_app _ _ Eext) as [x [-> Hlen]].
  destruct (measure_starts_head song starts) as [->|[rest0 ->]].
  { by rewrite Estarts. }
  { simpl in Hlen. lia. }
  assert (Hasc : StronglySorted (λ a b, start_time a ≤ start_time b)
                   (notes track)).
  { apply time_ascending_strongly, monophonic_time_ascending; [|done].
    eapply Forall_impl; [done|]. by intros n [_ H]. }
  change ((0 :: rest0) ++ [x]) with (0 :: (rest0 ++ [x])) in Eloop |- *.
  destruct (populate_loop_ok _ _ _ _ _ _ _ _ _ Hnotes Hasc Eloop) as [Hl Hms].
  split.
  { rewrite Hl, length_app. simpl. lia. }
  intros k m Hk.
  destruct (Hms k m Hk) as (start & end_ & timed & H1 & H2 & H3 & H4).
  rewrite measure_events_stats in H4.
  replace (0 + 1 + Z.of_nat k) with (Z.of_nat k + 1) in H4 by lia.
  exists start, end_, timed. split; [done|]. split; [done|]. split; [done|].
  split; [done|].
  set (collected := timed ++ measure_events song (tr_other track) start end_)
    in *.
  assert (Hleast : ∀ y, y ∈ collected
                   → item_le (IMeasureMarker start (Z.of_nat k + 1)) y).
  { intros y Hy. apply marker_least. apply elem_of_app in Hy as [Hy|Hy].
    - by apply (proj1 (Forall_forall _ _) H3) in Hy as [Hy _].
    - pose proof (measure_events_ok song (tr_other track) start end_) as He.
      by apply (proj1 (Forall_forall _ _) He) in Hy as [[Hy _] _]. }
  split; [|split].
  - exists (py_sorted item_le collected). rewrite H4.
    by apply py_sorted_head_least.
  - rewrite H4. apply py_sorted_sorted; auto using item_le_total.
  - intros z. rewrite H4. apply py_sorted_stable; eauto using item_le_trans.
Qed.

Lemma populate_measures_marker_first_tick_order_witness :
  ∃ starts ext,
    (ChirpSong_measure_starts tempo_change_song).1 = Ok starts
    ∧ extend_measure_starts starts = Ok ext
    ∧ length tempo_change_measures = length starts
    ∧ ∀ (k : nat) (m : list item), tempo_change_measures !! k = Some m →
        ∃ start end_ timed,
          ext !! k = Some start
          ∧ ext !! S k = Some end_
          ∧ Forall (timed_ok start) timed
          ∧ m = py_sorted item_le
                  (IMeasureMarker start (Z.of_nat k + 1)
                     :: timed
                     ++ measure_events tempo_change_song
                          (tr_other (sample_track tempo_change_notes)) start end_)
          ∧ (∃ rest, m = IMeasureMarker start (Z.of_nat k + 1) :: rest)
          ∧ Sorted item_le m
          ∧ ∀ z, filter (λ c, same_key item_le z c) m
                 = filter (λ c, same_key item_le z c)
                     (IMeasureMarker start (Z.of_nat k + 1)
                        :: timed
                        ++ measure_events tempo_change_song
                             (tr_other (sample_track tempo_change_notes))
                             start end_).
Proof.
  apply (populate_measures_marker_first_tick_order tempo_change_song
           (sample_track tempo_change_notes) tempo_change_measures).
  - repeat constructor; simpl; lia.
  - apply not_polyphonic_monophonic. reflexivity.
  - reflexivity.
Defined.

(** * Part III: further properties of the code *)

(** ** The quantization error *)

(** For a positive grid the error that the grid search measures for a
    time is the distance [quantize_fn] moves that time; it is at most
    half the grid, and it is zero exactly for the multiples of the
    grid. *)
Theorem quantization_error_is_snap_distance (t q : Z) :
  0 < q →
  quantization_error t q = Ok (Z.abs (t - snap t q))
  ∧ quantize_fn t q = Ok (snap t q)
  ∧ 0 ≤ Z.abs (t - snap t q)
  ∧ 2 * Z.abs (t - snap t q) ≤ q
  ∧ (Z.abs (t - snap t q) = 0 ↔ t `mod` q = 0).
Proof.
  intros Hq.
  pose proof (Z.div_mod t q ltac:(lia)) as Hdm.
  pose proof (Z.mod_pos_bound t q Hq) as Hb.
  split; [|split; [by apply quantize_fn_snap|]].
  - unfold quantization_error. rewrite floordiv_ok by lia.
    cbn [mbind result_bind]. f_equal. unfold snap.
    destruct (decide (2 * (t `mod` q) ≤ q)); nia.
  - unfold snap. destruct (decide (2 * (t `mod` q) ≤ q)); lia.
Qed.

Lemma quantization_error_is_snap_distance_witness :
  quantization_error 700 480 = Ok (Z.abs (700 - snap 700 480))
  ∧ quantize_fn 700 480 = Ok (snap 700 480)
  ∧ 0 ≤ Z.abs (700 - snap 700 480)
  ∧ 2 * Z.abs (700 - snap 700 480) ≤ 480
  ∧ (Z.abs (700 - snap 700 480) = 0 ↔ 700 `mod` 480 = 0).
Proof. apply (quantization_error_is_snap_distance 700 480). lia. Defined.

(** ** The grid search *)

Lemma mapR_ok_cons {A B} (f : A → result B) x l ys :
  mapR f (x :: l) = Ok ys → ∃ y, f x = Ok y.
Proof.
  simpl. destruct (f x) as [y| |]; [|done|done]. intros _. by exists y.
Qed.

Lemma objective_error_ok_nonzero notes q e :
  notes ≠ [] → objective_error notes q = Ok e → q ≠ 0.
Proof.
  intros Hne. unfold objective_error.
  destruct notes as [|n notes]; [done|].
  destruct (mapR _ (n :: notes)) as [errs| |] eqn:E; [|done|done].
  intros _ ->. apply mapR_ok_cons in E as [y Hy].
  unfold quantization_error, floordiv in Hy. by destruct (decide (0 = 0)).
Qed.

Lemma find_quantization_loop_positive fuel time_series ppq :
  ∀ last_err last_q note_value g,
    time_series ≠ [] → 0 ≤ ppq → 0 < last_q → 0 < note_value →
    find_quantization_loop fuel time_series ppq last_err last_q note_value
    = Ok g →
    0 < g.
Proof.
  induction fuel as [|fuel IH];
    intros last_err last_q note_value g Hne Hppq Hq Hnv; simpl.
  { intros [= <-]. lia. }
  destruct (decide (note_value ≤ 128)); [|intros [= <-]; lia].
  set (tq := (ppq * 4) `div` note_value).
  assert (Htq : 0 ≤ tq) by (apply Z.div_pos; lia).
  destruct (objective_error time_series tq) as [e| |] eqn:E1; [|done|done].
  apply objective_error_ok_nonzero in E1 as Htq0; [|done].
  cbn [mbind result_bind].
  destruct (decide (e = 0)); [intros [= <-]; lia|].
  destruct (decide (e > last_err)); [intros [= <-]; lia|].
  set (tq3 := (tq * 2) `div` 3).
  assert (Htq3 : 0 ≤ tq3) by (apply Z.div_pos; lia).
  destruct (objective_error time_series tq3) as [e3| |] eqn:E3; [|done|done].
  apply objective_error_ok_nonzero in E3 as Htq30; [|done].
  cbn [mbind result_bind].
  destruct (decide (e3 = 0)); [intros [= <-]; lia|].
  destruct (decide (e3 > e)); [intros [= <-]; lia|].
  apply IH; [done|done|lia|lia].
Qed.

(** [find_quantization] never hands out a grid that [quantize] could
    not divide by: for a positive [ppq], whenever it returns a grid the
    grid is positive.  On an empty series it does not return; [max]
    raises [ValueError]. *)
Theorem find_quantization_positive (time_series : list Z) (ppq g : Z) :
  0 < ppq →
  find_quantization time_series ppq = Ok g →
  time_series ≠ [] ∧ 0 < g.
Proof.
  intros Hppq H.
  destruct time_series as [|t ts]; [done|]. split; [done|].
  unfold find_quantization in H.
  apply find_quantization_loop_positive in H; [done|done|lia|lia|lia].
Qed.

Lemma find_quantization_positive_witness :
  [0; 240; 480; 720] ≠ [] ∧ 0 < 240.
Proof.
  apply (find_quantization_positive [0; 240; 480; 720] 960 240);
    [lia | reflexivity].
Defined.

Lemma find_quantization_empty ppq : find_quantization [] ppq = Raise ValueError.
Proof. reflexivity. Qed.

Lemma mapR_total {A B} (f : A → result B) (g : A → B) l :
  Forall (λ x, f x = Ok (g x)) l → mapR f l = Ok (g <$> l).
Proof.
  induction 1 as [|x l Hx _ IH]; simpl; [done|]. by rewrite Hx, IH.
Qed.

Lemma py_max_zeros (l : list Z) :
  l ≠ [] → Forall (λ x, x = 0) l → py_max l = Ok 0.
Proof.
  intros Hne Hl. destruct l as [|x l]; [done|].
  apply Forall_cons in Hl as [-> Hl]. simpl. f_equal.
  induction Hl as [|y l -> _ IH]; simpl; [done|]. apply IH. done.
Qed.

(** Times that all lie on a grid have the error 0 on it. *)
Lemma objective_error_on_grid notes q :
  0 < q → notes ≠ [] → Forall (λ t, t `mod` q = 0) notes →
  objective_error notes q = Ok 0.
Proof.
  intros Hq Hne Hall. unfold objective_error.
  rewrite (mapR_total _ (λ t, Z.abs (t - snap t q))).
  2:{ apply Forall_forall. intros t _.
      by destruct (quantization_error_is_snap_distance t q Hq) as [-> _]. }
  cbn [mbind result_bind]. apply py_max_zeros.
  - destruct notes; [done|]. by rewrite fmap_cons.
  - apply Forall_fmap. eapply Forall_impl; [done|]. intros t Ht. cbn.
    by apply (quantization_error_is_snap_distance t q Hq).
Qed.

(** Times that all lie on the quarter-note grid are given the
    quarter-note grid: the first candidate fits and is returned. *)
Theorem find_quantization_quarter_grid (time_series : list Z) (ppq : Z) :
  0 < ppq →
  time_series ≠ [] →
  Forall (λ t, t `mod` ppq = 0) time_series →
  find_quantization time_series ppq = Ok ppq.
Proof.
  intros Hppq Hne Hall. unfold find_quantization.
  cbn [find_quantization_loop].
  destruct (decide (4 ≤ 128)); [|lia].
  replace ((ppq * 4) `div` 4) with ppq by (rewrite Z.div_mul; lia).
  rewrite (objective_error_on_grid time_series ppq Hppq Hne Hall).
  cbn [mbind result_bind]. by destruct (decide (0 = 0)).
Qed.

Lemma find_quantization_quarter_grid_witness :
  find_quantization [0; 960; 2880] 960 = Ok 960.
Proof.
  apply (find_quantization_quarter_grid [0; 960; 2880] 960);
    [lia | discriminate | by repeat constructor].
Defined.

(** ** The duration grid *)

Lemma find_duration_loop_halves fuel :
  ∀ min_length q,
    0 < min_length → 0 < q → q < 2 ^ Z.of_nat fuel →
    ∃ q', find_duration_loop fuel min_length q = Ok q'
          ∧ 0 < q' ≤ q ∧ 9 * q' ≤ 10 * min_length.
Proof.
  induction fuel as [|fuel IH]; intros min_length q Hmin Hq Hfuel.
  { simpl in Hfuel. lia. }
  cbn [find_duration_loop].
  destruct (decide (q = 0)); [lia|].
  unfold ratio_lt_09, ratio_gt_09.
  destruct (decide (0 < q)); [|lia].
  destruct (bool_decide (10 * min_length < 9 * q)) eqn:Elt.
  - apply bool_decide_eq_true in Elt.
    assert (Hq2 : 2 ≤ q) by lia.
    assert (Htq : q ≤ (q * 3) `div` 2) by (Z.div_mod_to_equations; lia).
    destruct (decide ((q * 3) `div` 2 = 0)); [lia|].
    destruct (decide (0 < (q * 3) `div` 2)); [|lia].
    rewrite bool_decide_eq_false_2 by lia.
    destruct (IH min_length (q `div` 2)) as (q' & Hq' & Hb & Hr).
    + done.
    + Z.div_mod_to_equations; lia.
    + rewrite Nat2Z.inj_succ, Z.pow_succ_r in Hfuel by lia.
      Z.div_mod_to_equations; lia.
    + exists q'. split; [done|]. split; [|done].
      Z.div_mod_to_equations; lia.
  - apply bool_decide_eq_false in Elt. exists q. split; [done|]. lia.
Qed.

(** For positive durations and a positive note grid (all below 2^50,
    where the float quotient the code tests is exact enough),
    [find_duration_quantization] returns a positive grid that is no
    coarser than the note grid and of which every duration is at least
    nine tenths: no note is much shorter than the grid. *)
Theorem find_duration_quantization_fits (durations : list Z) (qticks_note : Z) :
  durations ≠ [] →
  Forall (λ d, 0 < d < 2 ^ 50) durations →
  0 < qticks_note < 2 ^ 50 →
  ∃ q, find_duration_quantization durations qticks_note = Ok q
       ∧ 0 < q ≤ qticks_note
       ∧ Forall (λ d, 9 * q ≤ 10 * d) durations.
Proof.
  intros Hne Hpos Hq. unfold find_duration_quantization.
  destruct durations as [|d ds]; [done|]. cbn [py_min mbind result_bind].
  destruct (foldl_min_spec ds d) as [Hin Hmin].
  set (min_length := foldl Z.min d ds) in *.
  assert (Hm : 0 < min_length).
  { by apply (proj1 (Forall_forall _ _) Hpos) in Hin as [Hin _]. }
  destruct (decide (¬ min_length > 0)); [lia|].
  destruct (find_duration_loop_halves
              (Z.to_nat (Z.log2_up (Z.abs qticks_note)) + 2) min_length qticks_note)
    as (q & Hrun & Hb & Hr); [done|lia| |].
  { rewrite Nat2Z.inj_add, Z2Nat.id by apply Z.log2_up_nonneg.
    rewrite Z.abs_eq by lia.
    destruct (decide (qticks_note = 1)) as [->|]; [done|].
    pose proof (Z.log2_up_spec qticks_note ltac:(lia)) as [_ Hup].
    rewrite Z.pow_add_r by (try apply Z.log2_up_nonneg; lia).
    pose proof (Z.log2_up_nonneg qticks_note).
    change (2 ^ Z.of_nat 2) with 4. lia. }
  exists q. split; [done|]. split; [done|].
  apply Forall_forall. intros x Hx. specialize (Hmin x Hx). lia.
Qed.

Lemma find_duration_quantization_fits_witness :
  ∃ q, find_duration_quantization [960; 480; 320; 240] 960 = Ok q
       ∧ 0 < q ≤ 960
       ∧ Forall (λ d, 9 * q ≤ 10 * d) [960; 480; 320; 240].
Proof.
  apply (find_duration_quantization_fits [960; 480; 320; 240] 960);
    [discriminate | repeat constructor; lia | lia].
Defined.

(** A duration that is not positive makes [find_duration_quantization]
    fail with the quantization error, whatever the note grid is. *)
Theorem find_duration_quantization_rejects (durations : list Z) (qticks_note : Z) :
  Exists (λ d, d ≤ 0) durations →
  find_duration_quantization durations qticks_note
  = Raise ChiptuneSAKQuantizationError.
Proof.
  intros Hex. unfold find_duration_quantization.
  destruct durations as [|d ds]; [by apply Exists_nil in Hex|].
  cbn [py_min mbind result_bind].
  destruct (foldl_min_spec ds d) as [_ Hmin].
  apply Exists_exists in Hex as (x & Hx & Hx0).
  specialize (Hmin x Hx).
  destruct (decide (¬ foldl Z.min d ds > 0)); [done|lia].
Qed.

Lemma find_duration_quantization_rejects_witness :
  find_duration_quantization [480; 0; 240] 480
  = Raise ChiptuneSAKQuantizationError.
Proof.
  apply (find_duration_quantization_rejects [480; 0; 240] 480).
  apply Exists_cons_tl, Exists_cons_hd. lia.
Defined.

(** ** What quantizing does to a note *)

Lemma snap_distance_half t g : 0 < g → 2 * Z.abs (snap t g - t) ≤ g.
Proof.
  intros Hg. destruct (quantization_error_is_snap_distance t g Hg)
    as (_ & _ & _ & H & _). lia.
Qed.

(** [ChirpTrack.quantize] with positive grids returns, sets the track's
    two grids, and treats every note on its own: the note stays at its
    place in the list with its pitch, velocity and tie; its start goes
    to a multiple of the note grid at most half a grid away; its
    duration goes to a multiple of the duration grid that is at least
    one grid long, so no note is left with a zero duration; and the two
    lists returned hold the change of each note's start and duration. *)
Theorem ChirpTrack_quantize_each_note (t : ChirpTrack) (qn qd : Z) :
  0 < qn → 0 < qd →
  ∃ start_changes duration_changes t',
    ChirpTrack_quantize (Some qn) (Some qd) t
    = (Ok (start_changes, duration_changes), t')
    ∧ tr_qticks_notes t' = qn ∧ tr_qticks_durations t' = qd
    ∧ length (notes t') = length (notes t)
    ∧ ∀ (i : nat) (n : Note), notes t !! i = Some n →
        ∃ n', notes t' !! i = Some n'
          ∧ note_num n' = note_num n ∧ velocity n' = velocity n
          ∧ tied n' = tied n
          ∧ start_time n' `mod` qn = 0
          ∧ 2 * Z.abs (start_time n' - start_time n) ≤ qn
          ∧ duration n' `mod` qd = 0
          ∧ qd ≤ duration n'
          ∧ start_changes !! i = Some (start_time n' - start_time n)
          ∧ duration_changes !! i = Some (duration n' - duration n).
Proof.
  intros Hn Hd.
  exists (track_changes qn qd t).1, (track_changes qn qd t).2, (snap_track qn qd t).
  split.
  { rewrite ChirpTrack_quantize_snap by done. by destruct (track_changes qn qd t). }
  split; [done|]. split; [done|].
  split; [unfold snap_track; cbn [notes]; by rewrite length_fmap|].
  intros i n Hi. exists (snap_note qn qd n).
  split; [unfold snap_track; cbn [notes]; by rewrite list_lookup_fmap, Hi|].
  unfold snap_note. cbn [note_num velocity tied start_time duration].
  split; [done|]. split; [done|]. split; [done|].
  split; [by apply snap_multiple|].
  split; [by apply snap_distance_half|].
  split; [by apply snap_duration_multiple|].
  split; [unfold snap_duration; destruct (decide _); lia|].
  unfold track_changes, unzip_changes. cbn [fst snd].
  rewrite !list_lookup_fmap, Hi. done.
Qed.

Lemma ChirpTrack_quantize_each_note_witness :
  ∃ start_changes duration_changes t',
    ChirpTrack_quantize (Some 480) (Some 240) chord_track
    = (Ok (start_changes, duration_changes), t')
    ∧ tr_qticks_notes t' = 480 ∧ tr_qticks_durations t' = 240
    ∧ length (notes t') = length (notes chord_track)
    ∧ ∀ (i : nat) (n : Note), notes chord_track !! i = Some n →
        ∃ n', notes t' !! i = Some n'
          ∧ note_num n' = note_num n ∧ velocity n' = velocity n
          ∧ tied n' = tied n
          ∧ start_time n' `mod` 480 = 0
          ∧ 2 * Z.abs (start_time n' - start_time n) ≤ 480
          ∧ duration n' `mod` 240 = 0
          ∧ 240 ≤ duration n'
          ∧ start_changes !! i = Some (start_time n' - start_time n)
          ∧ duration_changes !! i = Some (duration n' - duration n).
Proof. apply (ChirpTrack_quantize_each_note chord_track 480 240); lia. Defined.

(** ** More on removing polyphony *)

Lemma remove_polyphony_loop_chord ns :
  ∀ last deleted truncated,
    Forall (λ n, start_time n = start_time last) ns →
    remove_polyphony_loop last ns deleted truncated
    = ([last], deleted + Z.of_nat (length ns), truncated).
Proof.
  induction ns as [|n ns IH]; intros last deleted truncated Hall.
  { simpl. do 2 f_equal. lia. }
  apply Forall_cons in Hall as [Hn Hall].
  cbn [remove_polyphony_loop]. destruct (decide _); [|done].
  rewrite IH by done. do 2 f_equal. simpl length. lia.
Qed.

(** Of notes struck at the same tick, [remove_polyphony] keeps the one
    that is first in the list, whatever its pitch, and counts all the
    others as deleted; it does not look for the highest note. *)
Theorem remove_polyphony_chord_keeps_first (t : ChirpTrack) (first : Note)
    (ns : list Note) :
  notes t = first :: ns →
  Forall (λ n, start_time n = start_time first) ns →
  ChirpTrack_remove_polyphony t
  = (Ok (Z.of_nat (length ns), 0), set_notes [first] t).
Proof.
  intros Hnotes Hall. unfold ChirpTrack_remove_polyphony. rewrite Hnotes.
  by rewrite remove_polyphony_loop_chord.
Qed.

Lemma remove_polyphony_chord_keeps_first_witness :
  ChirpTrack_remove_polyphony rising_chord_track
  = (Ok (2, 0), set_notes [mkNote 60 0 960 100 false] rising_chord_track).
Proof.
  apply (remove_polyphony_chord_keeps_first rising_chord_track
           (mkNote 60 0 960 100 false)
           [mkNote 64 0 960 100 false; mkNote 67 0 960 100 false]).
  - reflexivity.
  - by repeat constructor.
Defined.

(** On notes that already follow one another, with positive durations,
    the loop changes nothing. *)
Lemma remove_polyphony_loop_clean ns :
  ∀ last deleted truncated,
    Sorted follows (last :: ns) →
    Forall (λ n, 0 < duration n) (last :: ns) →
    remove_polyphony_loop last ns deleted truncated
    = (last :: ns, deleted, truncated).
Proof.
  induction ns as [|n ns IH]; intros last deleted truncated Hs Hpos; [done|].
  apply Sorted_inv in Hs as [Hs Hhd]. apply HdRel_inv in Hhd as [Hlt Hend].
  apply Forall_cons in Hpos as [Hpl Hpos].
  cbn [remove_polyphony_loop].
  destruct (decide (start_time n = start_time last)); [lia|].
  destruct (decide (start_time n < start_time last + duration last)); [lia|].
  destruct (decide (duration last ≤ 0)); [lia|].
  by rewrite IH.
Qed.

(** [remove_polyphony] is idempotent: on a non-empty, time-ascending
    track of notes with positive durations a second call deletes and
    truncates nothing and leaves the track as the first call left it. *)
Theorem remove_polyphony_twice (t : ChirpTrack) :
  notes t ≠ [] →
  time_ascending (notes t) →
  Forall (λ n, 0 < duration n) (notes t) →
  ∃ counts t',
    ChirpTrack_remove_polyphony t = (Ok counts, t')
    ∧ ChirpTrack_remove_polyphony t' = (Ok (0, 0), t').
Proof.
  intros Hne Hasc Hpos. unfold ChirpTrack_remove_polyphony at 1.
  destruct (notes t) as [|last ns] eqn:Enotes; [done|].
  apply time_ascending_strongly in Hasc.
  apply StronglySorted_inv in Hasc as [Hs Hlast].
  destruct (remove_polyphony_loop_follows ns last 0 0 Hlast Hs)
    as (Hfollows & (first & rest & Hout & _) & Hposout).
  specialize (Hposout Hpos).
  destruct (remove_polyphony_loop last ns 0 0) as [[ret_notes deleted] truncated].
  cbn [fst] in *.
  assert (Hid : py_sorted note_key_le ret_notes = ret_notes).
  { apply py_sorted_id. apply (Sorted_weaken follows); [|done].
    intros a b. apply follows_note_key_le. }
  rewrite Hid. eexists _, _. split; [done|].
  unfold ChirpTrack_remove_polyphony. cbn [notes set_notes]. subst ret_notes.
  rewrite remove_polyphony_loop_clean by done.
  rewrite Hid. by destruct t.
Qed.

Lemma remove_polyphony_twice_witness :
  ∃ counts t',
    ChirpTrack_remove_polyphony chord_track = (Ok counts, t')
    ∧ ChirpTrack_remove_polyphony t' = (Ok (0, 0), t').
Proof.
  apply (remove_polyphony_twice chord_track).
  - discriminate.
  - repeat constructor; simpl; lia.
  - repeat constructor; simpl; lia.
Defined.
